(** * VMA subtitle tool: a shallow embedding of [main.py] and its properties

    The development follows the pipeline of [main.py]:
    [seconds_to_srt_timestamp], [split_audio], [transcribe_chunk_openai],
    [translate_text], [segments_to_srt] and [process_file], and then the
    two handlers of the window, [App.start] and [App._run_job].

    Modelling conventions.
    - A Python [float] holding a time in seconds is modelled by the rational
      number it denotes ([Q]); comparisons are [Qeq]/[Qle]/[Qlt].  Of the
      arithmetic the pipeline performs, [//], [%], [int], [min], the
      subtraction of the integer part and the additions of multiples of
      [CHUNK_SECONDS] are exact on binary64 for every duration below 2^53
      seconds, and the sum [start + local] of the rebasing is rounded
      monotonically.  The one operation whose rounding shows in the output,
      the product by 1000 in the timestamp formatter, is studied on binary64
      numbers in module [B64].
    - A [str] is a [string] of bytes; [str.strip] removes ASCII white space.
    - Code with effects (files, external tools and services, exceptions)
      lives in a state-and-exception monad over a [world] holding the file
      system, the process-wide [openai.api_key] and a log of external calls.
    - The [while] loop of [split_audio] takes fuel; [Diverge] is the outcome
      of a loop that has not finished, and the fuel [split_audio] passes is
      proved sufficient.
    - Of the window, the state is its three variables, the dialogs shown and
      the worker threads started; [Path], [os.path.dirname] and [str] of an
      exception are parameters ([platform]). *)

From Stdlib Require Import ZArith QArith Qround Lqa Lia String Ascii List DecimalString
  DecimalN Sorted Permutation SpecFloat.
From stdpp Require Import base gmap strings list.
Close Scope Q_scope.

(** ** Python numerics on rationals *)

Module Py.

(** [int(x)]: truncation toward zero. *)
Definition int (x : Q) : Z := Z.quot (Qnum x) (Z.pos (Qden x)).

(** [x // y] on floats: the floor of the quotient, still a float. *)
Definition floordiv (x y : Q) : Q := inject_Z (Qfloor (x / y)).

(** [x % y] on floats, for a positive [y]: the remainder of the floor
    division. *)
Definition mod_ (x y : Q) : Q := (x - y * inject_Z (Qfloor (x / y)))%Q.

(** [min(a, b)]: the first argument unless the second is strictly smaller. *)
Definition min (a b : Q) : Q := if Qle_bool a b then a else b.

(** [str(n)] for a non-negative integer. *)
Definition str_nonneg (n : Z) : string :=
  NilEmpty.string_of_uint (N.to_uint (Z.to_N n)).

Fixpoint zeros (n : nat) : string :=
  match n with
  | O => EmptyString
  | S k => String "0" (zeros k)
  end.

Definition zfill (width : nat) (s : string) : string :=
  zeros (width - String.length s) +:+ s.

(** The format specification [{z:0Wd}]: decimal, zero-padded to a minimum
    width [W], the sign counted in the width and put before the zeros. *)
Definition format_0d (width : nat) (z : Z) : string :=
  if (z <? 0)%Z
  then "-" +:+ zfill (width - 1) (str_nonneg (- z))
  else zfill width (str_nonneg z).

(** White space as [str.isspace] sees it on ASCII: TAB, LF, VT, FF, CR,
    FS, GS, RS, US and the space. *)
Definition isspace (a : ascii) : bool :=
  let n := nat_of_ascii a in
  ((9 <=? n) && (n <=? 13) || (28 <=? n) && (n <=? 32))%nat.

Fixpoint lstrip (s : string) : string :=
  match s with
  | EmptyString => EmptyString
  | String a r => if isspace a then lstrip r else s
  end.

Fixpoint rstrip (s : string) : string :=
  match s with
  | EmptyString => EmptyString
  | String a r =>
      match rstrip r with
      | EmptyString => if isspace a then EmptyString else String a EmptyString
      | r' => String a r'
      end
  end.

(** [s.strip()] *)
Definition strip (s : string) : string := rstrip (lstrip s).

End Py.

(** The line feed written by ["\n"]. *)
Definition nl : string := String (ascii_of_nat 10) EmptyString.

(** ** Timestamps *)

Definition seconds_to_srt_timestamp (sec : Q) : string :=
  let h := Py.int (Py.floordiv sec 3600) in
  let m := Py.int (Py.floordiv (Py.mod_ sec 3600) 60) in
  let s := Py.int (Py.mod_ sec 60) in
  let ms := Py.int ((sec - inject_Z (Py.int sec)) * 1000)%Q in
  Py.format_0d 2 h +:+ ":" +:+ Py.format_0d 2 m +:+ ":" +:+
  Py.format_0d 2 s +:+ "," +:+ Py.format_0d 3 ms.

(** ** Python floats as binary64 numbers

    The same arithmetic on IEEE 754 binary64 numbers, rounding to nearest
    even, for finite arguments and non-zero divisors: [float.__floordiv__]
    and [float.__mod__] as CPython computes them from C's [fmod] and
    [floor]. *)

Module B64.

Definition prec : Z := 53.
Definition emax : Z := 1024.

Definition of_parts (m e : Z) : spec_float := binary_normalize prec emax m e false.

(** [float(z)] *)
Definition of_Z (z : Z) : spec_float := of_parts z 0.

Definition add : spec_float -> spec_float -> spec_float := SFadd prec emax.
Definition sub : spec_float -> spec_float -> spec_float := SFsub prec emax.
Definition mul : spec_float -> spec_float -> spec_float := SFmul prec emax.
Definition div : spec_float -> spec_float -> spec_float := SFdiv prec emax.

(** The float a decimal literal [num / den] denotes, for [num] and [den]
    below 2^53: the quotient, correctly rounded. *)
Definition of_decimal (num den : Z) : spec_float := div (of_Z num) (of_Z den).


Definition is_zero (x : spec_float) : bool :=
  match x with S754_zero _ => true | _ => false end.

Definition is_negative (x : spec_float) : bool :=
  SFltb x (S754_zero false).

Definition sign_bit (x : spec_float) : bool :=
  match x with
  | S754_zero s | S754_infinity s | S754_finite s _ _ => s
  | S754_nan => false
  end.

(** [int(x)] for a finite [x]: truncation toward zero. *)
Definition int (x : spec_float) : Z :=
  match x with
  | S754_finite s m e =>
      let n := match e with
               | Z.neg p => Z.shiftr (Z.pos m) (Z.pos p)
               | _ => (Z.pos m * 2 ^ e)%Z
               end in
      if s then (- n)%Z else n
  | _ => 0%Z
  end.

(** C's [floor] *)
Definition floor (x : spec_float) : spec_float :=
  match x with
  | S754_finite s m (Z.neg p) =>
      binary_normalize prec emax
        (Z.shiftr (if s then Z.neg m else Z.pos m) (Z.pos p)) 0 s
  | _ => x
  end.

(** C's [fmod]: the exact remainder, with the sign of the dividend. *)
Definition fmod (x y : spec_float) : spec_float :=
  match x, y with
  | S754_finite sx mx ex, S754_finite _ my ey =>
      let e := Z.min ex ey in
      let r := Z.rem (Z.pos mx * 2 ^ (ex - e))%Z (Z.pos my * 2 ^ (ey - e))%Z in
      binary_normalize prec emax (if sx then (- r)%Z else r) e sx
  | S754_zero _, S754_finite _ _ _ => x
  | S754_finite _ _ _, S754_infinity _ => x
  | S754_zero _, S754_infinity _ => x
  | _, _ => S754_nan
  end.

(** [x % y] *)
Definition mod_ (x y : spec_float) : spec_float :=
  let m := fmod x y in
  if is_zero m then S754_zero (sign_bit y)
  else if xorb (is_negative y) (is_negative m) then add m y else m.

(** [x // y] *)
Definition floordiv (x y : spec_float) : spec_float :=
  let m := fmod x y in
  let d := div (sub x m) y in
  let d := if is_zero m then d
           else if xorb (is_negative y) (is_negative m)
                then sub d (of_Z 1) else d in
  if is_zero d then S754_zero (sign_bit (div x y))
  else
    let f := floor d in
    if SFltb (of_decimal 1 2) (sub d f) then add f (of_Z 1) else f.

(** [seconds_to_srt_timestamp], line by line, on binary64 numbers. *)
Definition seconds_to_srt_timestamp (sec : spec_float) : string :=
  let h := int (floordiv sec (of_Z 3600)) in
  let m := int (floordiv (mod_ sec (of_Z 3600)) (of_Z 60)) in
  let s := int (mod_ sec (of_Z 60)) in
  let ms := int (mul (sub sec (of_Z (int sec))) (of_Z 1000)) in
  Py.format_0d 2 h +:+ ":" +:+ Py.format_0d 2 m +:+ ":" +:+
  Py.format_0d 2 s +:+ "," +:+ Py.format_0d 3 ms.

End B64.

(** ** Exceptions, outcomes and the world *)

Inductive exn : Type :=
| RuntimeError (msg : string)
| CalledProcessError (tool : string)
| FileNotFoundError (path : string)
| ExternalError (msg : string).

(** What running a piece of code gives: a value, a raised exception, or
    [Diverge] for a loop whose fuel ran out. *)
Inductive outcome (A : Type) : Type :=
| Ok (a : A)
| Raise (e : exn)
| Diverge.
Arguments Ok {A} a.
Arguments Raise {A} e.
Arguments Diverge {A}.

(** A file-system entry: a directory, an audio file, or a text file. *)
Inductive node : Type :=
| Dir
| Wav
| Txt (content : string).

(** Calls that leave the process. *)
Inductive call : Type :=
| CallExtractAudio (video audio : string)
| CallProbe (audio : string)
| CallCutChunk (audio : string) (start stop : Q) (chunk_path : string)
| CallAudioTranscribe (chunk_path : string)
| CallTranscriptionCreate (chunk_path : string)
| CallTranslate (text : string)
| CallProgress (msg : string).

Record world : Type := mkWorld {
  files : gmap string node;
  openai_api_key : option string;
  calls : list call
}.

(** One unit of a transcription response: the dict an SDK returns, read
    with [s.get(key, default)]. *)
Record segment : Type := mkSegment {
  seg_start : option Q;
  seg_end : option Q;
  seg_text : option string
}.

(** A transcription response, read with [res.get("text")] and
    [res.get("segments")]. *)
Record response : Type := mkResponse {
  res_text : option string;
  res_segments : option (list segment)
}.

Record openai_sdk : Type := mkSdk {
  Audio_transcribe : string -> exn + response;
  Transcription_create : string -> exn + response
}.

(** The optional dependencies and external tools of one run.  [mpy],
    [openai] and [Translator] are [None] when their import failed. *)
Record env : Type := mkEnv {
  mpy : option (string -> exn + Q);
  ffmpeg_wav : string -> bool;
  ffprobe_duration : string -> exn + Q;
  ffmpeg_cut : Q -> Q -> string -> bool;
  openai : option openai_sdk;
  Translator : option (string -> exn + string)
}.

(** ** The monad *)

Definition M (A : Type) : Type := world -> outcome A * world.

Definition ret {A} (a : A) : M A := fun w => (Ok a, w).

Definition bind {A B} (m : M A) (k : A -> M B) : M B :=
  fun w =>
    match m w with
    | (Ok a, w1) => k a w1
    | (Raise e, w1) => (Raise e, w1)
    | (Diverge, w1) => (Diverge, w1)
    end.

Definition raise {A} (e : exn) : M A := fun w => (Raise e, w).

Definition diverge {A} : M A := fun w => (Diverge, w).

(** [try: body except Exception: handler] *)
Definition try_except {A} (body : M A) (handler : exn -> M A) : M A :=
  fun w =>
    match body w with
    | (Raise e, w1) => handler e w1
    | r => r
    end.

Declare Scope monad_scope.
Delimit Scope monad_scope with M.
Notation "'let*' x ':=' m 'in' k" := (bind m (fun x => k))
  (at level 10, x name, m at level 100, k at level 200) : monad_scope.
Notation "'exec' m 'in' k" := (bind m (fun _ => k))
  (at level 10, m at level 100, k at level 200) : monad_scope.
Local Open Scope monad_scope.

(** *** Primitive effects *)

Definition log (c : call) : M unit :=
  fun w => (Ok tt, mkWorld (files w) (openai_api_key w) (calls w ++ [c])).

(** [Path.mkdir(parents=True, exist_ok=True)] *)
Definition mkdir (p : string) : M unit :=
  fun w =>
    match files w !! p with
    | Some _ => (Ok tt, w)
    | None => (Ok tt, mkWorld (<[p := Dir]> (files w)) (openai_api_key w) (calls w))
    end.

(** A tool or [open(p, "w")] creating or replacing the file [p]. *)
Definition write_file (p : string) (n : node) : M unit :=
  fun w => (Ok tt, mkWorld (<[p := n]> (files w)) (openai_api_key w) (calls w)).

(** [f.write(s)] on a text file opened for writing. *)
Definition append_file (p : string) (s : string) : M unit :=
  fun w =>
    match files w !! p with
    | Some (Txt c) =>
        (Ok tt, mkWorld (<[p := Txt (c +:+ s)]> (files w)) (openai_api_key w) (calls w))
    | _ => (Raise (FileNotFoundError p), w)
    end.

(** [open(p, "rb")] *)
Definition open_rb (p : string) : M unit :=
  fun w =>
    match files w !! p with
    | Some Dir | None => (Raise (FileNotFoundError p), w)
    | Some _ => (Ok tt, w)
    end.

(** [openai.api_key = k] *)
Definition set_api_key (k : string) : M unit :=
  fun w => (Ok tt, mkWorld (files w) (Some k) (calls w)).

(** A call into a library or service: logged, then its value or its
    exception. *)
Definition external {A} (c : call) (r : exn + A) : M A :=
  exec log c in
  match r with
  | inl e => raise e
  | inr a => ret a
  end.

(** [subprocess.check_call(cmd)] *)
Definition check_call (c : call) (tool : string) (status_ok : bool) : M unit :=
  exec log c in
  if status_ok then ret tt else raise (CalledProcessError tool).

(** [Path / name] *)
Definition path_join (dir name : string) : string := dir +:+ "/" +:+ name.

(** ** Segmenter *)

Definition CHUNK_SECONDS : Q := 5 * 60.

(** An element of [chunks]: [(start, end, chunk_path)]. *)
Definition chunk : Type := Q * Q * string.

Definition Qlt_bool (a b : Q) : bool := negb (Qle_bool b a).

(** Lines 47-68 of [split_audio]: the whole sound track goes to
    [full_audio.wav] and its duration is read. *)
Definition extract_full_audio (E : env) (video_path out_dir : string) : M Q :=
  exec mkdir out_dir in
  let audio_path := path_join out_dir "full_audio.wav" in
  match mpy E with
  | Some clip =>
      let* duration := external (CallExtractAudio video_path audio_path)
                                (clip video_path) in
      exec write_file audio_path Wav in
      ret duration
  | None =>
      exec check_call (CallExtractAudio video_path audio_path) "ffmpeg"
                 (ffmpeg_wav E video_path) in
      exec write_file audio_path Wav in
      external (CallProbe audio_path) (ffprobe_duration E audio_path)
  end.

(** Lines 70-87: the [while start < duration] loop. *)
Fixpoint split_loop (E : env) (chunk_seconds : Q) (out_dir : string)
    (duration : Q) (fuel : nat) (start : Q) (idx : nat) (chunks : list chunk)
    : M (list chunk) :=
  if Qlt_bool start duration then
    match fuel with
    | O => diverge
    | S fuel' =>
        let end_ := Py.min duration (start + chunk_seconds)%Q in
        let chunk_path :=
          path_join out_dir ("chunk_" +:+ Py.format_0d 3 (Z.of_nat idx) +:+ ".wav") in
        exec check_call (CallCutChunk (path_join out_dir "full_audio.wav")
                                      start end_ chunk_path)
                        "ffmpeg" (ffmpeg_cut E start end_ chunk_path) in
        exec write_file chunk_path Wav in
        split_loop E chunk_seconds out_dir duration fuel'
                   (start + chunk_seconds)%Q (S idx)
                   (chunks ++ [(start, end_, chunk_path)])
    end
  else ret chunks.

(** Iterations that are enough for a source of [duration] seconds. *)
Definition fuel_for (chunk_seconds duration : Q) : nat :=
  S (Z.to_nat (Qfloor (duration / chunk_seconds))).

Definition segment_audio (E : env) (chunk_seconds : Q) (out_dir : string)
    (duration : Q) : M (list chunk) :=
  split_loop E chunk_seconds out_dir duration
             (fuel_for chunk_seconds duration) 0%Q 0%nat [].

Definition split_audio_with (E : env) (chunk_seconds : Q)
    (video_path out_dir : string) : M (list chunk) :=
  let* duration := extract_full_audio E video_path out_dir in
  segment_audio E chunk_seconds out_dir duration.

Definition split_audio (E : env) (video_path out_dir : string) : M (list chunk) :=
  split_audio_with E CHUNK_SECONDS video_path out_dir.

(** ** Transcriber and translator adapters *)

Definition transcribe_chunk_openai (E : env) (chunk_path : string)
    (api_key : option string) : M (string * list segment) :=
  match openai E with
  | None => raise (RuntimeError "openai library not installed")
  | Some sdk =>
      match api_key with
      | None => raise (RuntimeError "OpenAI API key not set")
      | Some key =>
          exec set_api_key key in
          exec open_rb chunk_path in
          try_except
            (let* res := external (CallAudioTranscribe chunk_path)
                                  (Audio_transcribe sdk chunk_path) in
             ret (default "" (res_text res), default [] (res_segments res)))
            (fun _ =>
             let* res := external (CallTranscriptionCreate chunk_path)
                                  (Transcription_create sdk chunk_path) in
             ret (default "" (res_text res), default [] (res_segments res)))
      end
  end.

Definition translate_text (text : string)
    (translator : option (string -> exn + string)) : M string :=
  match translator with
  | None => ret text
  | Some translate =>
      try_except (external (CallTranslate text) (translate text))
                 (fun _ => ret text)
  end.

(** ** Timeline entries *)

(** The dict [{"start": .., "end": .., "text": .., "zh": ..}]. *)
Record entry : Type := mkEntry {
  e_start : Q;
  e_end : Q;
  e_text : string;
  e_zh : string
}.

(** Lines 141-146: one entry per segment of the response. *)
Fixpoint rebase_segments (start : Q) (translator : option (string -> exn + string))
    (segments : list segment) (all_segments : list entry) : M (list entry) :=
  match segments with
  | [] => ret all_segments
  | s :: rest =>
      let seg_start := (start + default 0 (seg_start s))%Q in
      let seg_end := (start + default 0 (seg_end s))%Q in
      let eng_text := Py.strip (default "" (seg_text s)) in
      let* chi_text := translate_text eng_text translator in
      rebase_segments start translator rest
        (all_segments ++ [mkEntry seg_start seg_end eng_text chi_text])
  end.

(** Lines 140-150: what one transcription adds to [all_segments]. *)
Definition append_transcription (c : chunk) (translator : option (string -> exn + string))
    (text : string) (segments : list segment) (all_segments : list entry)
    : M (list entry) :=
  let '(start, end_, _) := c in
  match segments with
  | _ :: _ => rebase_segments start translator segments all_segments
  | [] =>
      let eng_text := Py.strip text in
      let* chi_text := translate_text eng_text translator in
      ret (all_segments ++ [mkEntry start end_ eng_text chi_text])
  end.

Definition progress (progress_callback : bool) (msg : string) : M unit :=
  if progress_callback then log (CallProgress msg) else ret tt.

Definition str_nat (n : nat) : string := Py.str_nonneg (Z.of_nat n).

(** Lines 136-154: the body of the loop over the chunks. *)
Definition process_chunk (E : env) (api_key : option string) (use_openai : bool)
    (translator : option (string -> exn + string))
    (progress_callback : bool) (total_chunks idx : nat) (c : chunk)
    (all_segments : list entry) : M (list entry) :=
  let '(start, end_, chunk_path) := c in
  exec progress progress_callback
    ("Transcribing chunk " +:+ str_nat (idx + 1) +:+ "/" +:+
     str_nat total_chunks +:+ "...") in
  let* all_segments :=
    if use_openai then
      let* r := transcribe_chunk_openai E chunk_path api_key in
      let '(text, segments) := r in
      append_transcription (start, end_, chunk_path) translator text segments
                           all_segments
    else
      raise (RuntimeError "Local transcription mode not implemented in this package.") in
  exec progress progress_callback
    ("Finished chunk " +:+ str_nat (idx + 1) +:+ "/" +:+ str_nat total_chunks) in
  ret all_segments.

(** Lines 135-154: [for idx, (start, end, chunk_path) in enumerate(chunks)]. *)
Fixpoint process_chunks (E : env) (api_key : option string) (use_openai : bool)
    (translator : option (string -> exn + string))
    (progress_callback : bool) (total_chunks idx : nat) (chunks : list chunk)
    (all_segments : list entry) : M (list entry) :=
  match chunks with
  | [] => ret all_segments
  | c :: rest =>
      let* all_segments :=
        process_chunk E api_key use_openai translator progress_callback
                      total_chunks idx c all_segments in
      process_chunks E api_key use_openai translator progress_callback
                     total_chunks (S idx) rest all_segments
  end.

(** ** Ordering the timeline *)

(** [list.sort(key=...)] is stable and ascending: an element goes before
    the first element of the sorted rest whose key is not smaller. *)
Fixpoint insert_by_start (x : entry) (l : list entry) : list entry :=
  match l with
  | [] => [x]
  | y :: r =>
      if Qle_bool (e_start x) (e_start y) then x :: y :: r
      else y :: insert_by_start x r
  end.

(** [all_segments.sort(key=lambda x: x["start"])] *)
Fixpoint sort_by_start (l : list entry) : list entry :=
  match l with
  | [] => []
  | x :: r => insert_by_start x (sort_by_start r)
  end.

(** ** Subtitle encoder *)

(** The text of one [f.write] of [segments_to_srt]. *)
Definition cue_block (i : nat) (seg : entry) : string :=
  let start_ts := seconds_to_srt_timestamp (e_start seg) in
  let end_ts := seconds_to_srt_timestamp (e_end seg) in
  let eng := Py.strip (e_text seg) in
  let chi := Py.strip (e_zh seg) in
  str_nat i +:+ nl +:+ start_ts +:+ " --> " +:+ end_ts +:+ nl +:+
  eng +:+ nl +:+ chi +:+ nl +:+ nl.

(** [for i, seg in enumerate(all_segments, start=i): f.write(...)] *)
Fixpoint write_cues (srt_path : string) (i : nat) (all_segments : list entry)
    : M unit :=
  match all_segments with
  | [] => ret tt
  | seg :: rest =>
      exec append_file srt_path (cue_block i seg) in
      write_cues srt_path (S i) rest
  end.

Definition segments_to_srt (all_segments : list entry) (srt_path : string) : M unit :=
  exec write_file srt_path (Txt "") in
  write_cues srt_path 1 all_segments.

(** The document [segments_to_srt] leaves in the file. *)
Fixpoint encode_from (i : nat) (timeline : list entry) : string :=
  match timeline with
  | [] => ""
  | seg :: rest => cue_block i seg +:+ encode_from (S i) rest
  end.

Definition encode (timeline : list entry) : string := encode_from 1 timeline.

(** ** The pipeline *)

(** A [Path] to the video, by the parts the pipeline reads. *)
Record video : Type := mkVideo {
  v_parent : string;
  v_stem : string;
  v_suffix : string
}.

Definition video_str (v : video) : string :=
  path_join (v_parent v) (v_stem v +:+ v_suffix v).

(** [output_dir or video_path.parent] *)
Definition output_dir_of (v : video) (output_dir : option string) : string :=
  match output_dir with
  | Some d => if String.eqb d "" then v_parent v else d
  | None => v_parent v
  end.

Definition work_dir_of (v : video) (output_dir : option string) : string :=
  path_join (output_dir_of v output_dir) (v_stem v +:+ "_work").

Definition srt_path_of (v : video) (output_dir : option string) : string :=
  path_join (output_dir_of v output_dir) (v_stem v +:+ ".srt").

Definition process_file (E : env) (video_path : video) (api_key : option string)
    (use_openai : bool) (output_dir : option string) (progress_callback : bool)
    : M string :=
  let work_dir := work_dir_of video_path output_dir in
  exec mkdir work_dir in
  let* chunks := split_audio E (video_str video_path) work_dir in
  let translator := Translator E in
  let total_chunks := length chunks in
  let* all_segments :=
    process_chunks E api_key use_openai translator progress_callback
                   total_chunks 0 chunks [] in
  let all_segments := sort_by_start all_segments in
  let srt_path := srt_path_of video_path output_dir in
  exec segments_to_srt all_segments srt_path in
  ret srt_path.

(** ** Predicates used in the statements *)

Definition is_digit (a : ascii) : bool :=
  let n := nat_of_ascii a in ((48 <=? n) && (n <=? 57))%nat.

Fixpoint all_digits (s : string) : bool :=
  match s with
  | EmptyString => true
  | String a r => is_digit a && all_digits r
  end.


(** The time windows of a list of chunks. *)
Definition windows_of (chunks : list chunk) : list (Q * Q) :=
  map (fun c : chunk => (fst (fst c), snd (fst c))) chunks.

(** [tiles a b ws]: the windows [ws] are non-empty, each starts where the
    one before it ends, the first starts at [a] and the last ends at [b]. *)
Inductive tiles : Q -> Q -> list (Q * Q) -> Prop :=
| tiles_nil (a b : Q) : (a == b)%Q -> tiles a b []
| tiles_cons (a b s e : Q) (ws : list (Q * Q)) :
    (a == s)%Q -> (s < e)%Q -> tiles e b ws -> tiles a b ((s, e) :: ws).

(** Ascending order of the [start] keys. *)
Definition start_le (x y : entry) : Prop := (e_start x <= e_start y)%Q.

(** The entries whose [start] key equals [k], in the order of the list. *)
Definition with_start (k : Q) (l : list entry) : list entry :=
  List.filter (fun x => Qeq_bool (e_start x) k) l.

(** The world after one more logged call. *)
Definition logged (c : call) (w : world) : world :=
  mkWorld (files w) (openai_api_key w) (calls w ++ [c]).

(** The text [translate_text] gives back. *)
Definition translation (text : string) (translator : option (string -> exn + string))
    : string :=
  match translator with
  | None => text
  | Some translate =>
      match translate text with
      | inl _ => text
      | inr translated => translated
      end
  end.

(** The local start and end of a unit, read as the loop reads them. *)
Definition local_start (s : segment) : Q := default 0%Q (seg_start s).
Definition local_end (s : segment) : Q := default 0%Q (seg_end s).

(** The entry lines 142-146 build from one unit of a chunk starting at
    [start]. *)
Definition rebased (start : Q) (translator : option (string -> exn + string))
    (s : segment) : entry :=
  let eng_text := Py.strip (default "" (seg_text s)) in
  mkEntry (start + local_start s)%Q (start + local_end s)%Q eng_text
          (translation eng_text translator).

(** ** Sample runs *)

Definition empty_world : world := mkWorld ∅ None [].

Definition sample_video : video := mkVideo "/d" "movie" ".mp4".

(** A service that hears nothing in the second chunk and two units, given
    out of order, in every other chunk. *)
Definition sample_sdk : openai_sdk :=
  mkSdk
    (fun chunk_path =>
       if String.eqb chunk_path "/d/movie_work/chunk_001.wav"
       then inr (mkResponse (Some "") None)
       else inr (mkResponse (Some " later first ")
                   (Some [mkSegment (Some (1 # 2)%Q) (Some 2%Q) (Some " later ");
                          mkSegment (Some 0%Q) (Some (1 # 3)%Q) (Some "first")])))
    (fun _ => inl (ExternalError "no such attribute")).

(** A service whose two entry points both fail on the second chunk. *)
Definition failing_sdk : openai_sdk :=
  mkSdk
    (fun chunk_path =>
       if String.eqb chunk_path "/d/movie_work/chunk_001.wav"
       then inl (ExternalError "timeout")
       else inr (mkResponse (Some "words") None))
    (fun _ => inl (ExternalError "quota exceeded")).

(** moviepy present and reporting [duration]; every ffmpeg call succeeds;
    no translator. *)
Definition sample_env (duration : Q) (sdk : option openai_sdk) : env :=
  mkEnv (Some (fun _ => inr duration)) (fun _ => true) (fun _ => inr duration)
        (fun _ _ _ => true) sdk None.

(** ** Effects on the file system *)

(** Every run of [c] takes the file system to one related to it by [R]. *)
Definition keeps (R : relation (gmap string node)) {A} (c : M A) : Prop :=
  forall w o w', c w = (o, w') -> R (files w) (files w').

(** No path is lost. *)
Definition never_shrinks (m m' : gmap string node) : Prop :=
  forall p, is_Some (m !! p) -> is_Some (m' !! p).

(** The work directory and the paths directly below it. *)
Definition in_work_dir (work_dir p : string) : Prop :=
  p = work_dir \/ exists name, p = path_join work_dir name.

(** Nothing changes outside the work directory. *)
Definition same_outside (work_dir : string) (m m' : gmap string node) : Prop :=
  forall p, ~ in_work_dir work_dir p -> m' !! p = m !! p.

(** The world in which chunk [idx] (counted from 0) of [total] is
    transcribed: the progress call, when there is a callback, has been made. *)
Definition announced (cb : bool) (total idx : nat) (w : world) : world :=
  snd (progress cb ("Transcribing chunk " +:+ str_nat (idx + 1) +:+ "/" +:+
                    str_nat total +:+ "...") w).

(** No chunk has been cut and no transcription request has been sent. *)
Definition no_chunk_work (w : world) : Prop :=
  forall c, c ∈ calls w ->
    match c with
    | CallCutChunk _ _ _ _ | CallAudioTranscribe _ | CallTranscriptionCreate _ => False
    | _ => True
    end.

(** No audio file is left in the file system. *)
Definition no_audio_left (w : world) : Prop :=
  forall p, files w !! p <> Some Wav.

(** ** Subtitle documents *)

Fixpoint one_line (s : string) : bool :=
  match s with
  | EmptyString => true
  | String a r => negb (Ascii.eqb a (ascii_of_nat 10)) && one_line r
  end.

(** [HH:MM:SS,mmm]: decimal digits, at least two for the hours, two for the
    minutes and the seconds, three for the milliseconds. *)
Definition is_timestamp (s : string) : Prop :=
  exists hh mm ss mmm,
    s = hh +:+ ":" +:+ mm +:+ ":" +:+ ss +:+ "," +:+ mmm /\
    (2 <= String.length hh /\ all_digits hh = true) /\
    (String.length mm = 2 /\ all_digits mm = true) /\
    (String.length ss = 2 /\ all_digits ss = true) /\
    (String.length mmm = 3 /\ all_digits mmm = true).

(** [srt_cues i n doc]: [doc] is [n] cue blocks numbered from [i], each a
    sequence number, a time range, a source line, a translated line and a
    blank line. *)
Inductive srt_cues : nat -> nat -> string -> Prop :=
| srt_end (i : nat) : srt_cues i 0 ""
| srt_block (i n : nat) (t1 t2 eng chi rest : string) :
    is_timestamp t1 -> is_timestamp t2 ->
    one_line eng = true -> one_line chi = true ->
    srt_cues (S i) n rest ->
    srt_cues i (S n)
      (str_nat i +:+ nl +:+ t1 +:+ " --> " +:+ t2 +:+ nl +:+
       eng +:+ nl +:+ chi +:+ nl +:+ nl +:+ rest).

(** A subtitle document of [n] cues, numbered from 1. *)
Definition srt_document (n : nat) (doc : string) : Prop := srt_cues 1 n doc.

(** The entries lines 140-150 append for a chunk whose transcription is
    [(text, segments)]. *)
Definition contribution (c : chunk) (translator : option (string -> exn + string))
    (text : string) (segments : list segment) : list entry :=
  match segments with
  | [] => [mkEntry (fst (fst c)) (snd (fst c)) (Py.strip text)
                   (translation (Py.strip text) translator)]
  | _ :: _ => map (rebased (fst (fst c)) translator) segments
  end.


(** ** The segmenter as a counted loop *)

(** The chunk the loop of [split_audio] makes at [start] with index [idx]. *)
Definition chunk_at (chunk_seconds : Q) (out_dir : string) (duration start : Q)
    (idx : nat) : chunk :=
  (start, Py.min duration (start + chunk_seconds)%Q,
   path_join out_dir ("chunk_" +:+ Py.format_0d 3 (Z.of_nat idx) +:+ ".wav")).

(** The chunks of [n] turns of the loop entered at [start] with index [idx]. *)
Fixpoint chunks_from (chunk_seconds : Q) (out_dir : string) (duration : Q)
    (n : nat) (start : Q) (idx : nat) : list chunk :=
  match n with
  | O => []
  | S k =>
      chunk_at chunk_seconds out_dir duration start idx ::
      chunks_from chunk_seconds out_dir duration k (start + chunk_seconds)%Q (S idx)
  end.

(** The number of turns left when the loop is at [start]. *)
Definition turns_left (chunk_seconds duration start : Q) : nat :=
  Z.to_nat (Qceiling ((duration - start) / chunk_seconds)).

(** The ffmpeg call that cuts a chunk, and its exit status. *)
Definition cut_call (out_dir : string) (c : chunk) : call :=
  CallCutChunk (path_join out_dir "full_audio.wav") (fst (fst c)) (snd (fst c)) (snd c).

Definition cut_ok (E : env) (c : chunk) : bool :=
  ffmpeg_cut E (fst (fst c)) (snd (fst c)) (snd c).

(** The world after the chunks [done] have been cut. *)
Definition after_cuts (out_dir : string) (done : list chunk) (w : world) : world :=
  mkWorld (foldl (fun m c => <[snd c := Wav]> m) (files w) done)
          (openai_api_key w)
          (calls w ++ map (cut_call out_dir) done).

(** The world after the chunks [done] have been cut and the cut of [c] has
    failed. *)
Definition after_failed_cut (out_dir : string) (done : list chunk) (c : chunk)
    (w : world) : world :=
  logged (cut_call out_dir c) (after_cuts out_dir done w).

(** What cutting the chunks [todo] in turn gives: all of them, or the
    failure of the first whose cut fails. *)
Fixpoint cut_all (E : env) (out_dir : string) (done todo : list chunk) (w : world)
    : outcome (list chunk) * world :=
  match todo with
  | [] => (Ok done, after_cuts out_dir done w)
  | c :: rest =>
      if cut_ok E c then cut_all E out_dir (done ++ [c]) rest w
      else (Raise (CalledProcessError "ffmpeg"), after_failed_cut out_dir done c w)
  end.

(** ** Adapters *)

(** The world in which the requests of [transcribe_chunk_openai] are made:
    the key has been stored in [openai.api_key]. *)
Definition with_api_key (key : string) (w : world) : world :=
  mkWorld (files w) (Some key) (calls w).

(** What the adapter makes of a response: [res.get("text") or ""] and
    [res.get("segments") or []]. *)
Definition transcript (res : response) : string * list segment :=
  (default "" (res_text res), default [] (res_segments res)).

(** The texts [translate_text] is called on for one transcription. *)
Definition texts_to_translate (text : string) (segments : list segment) : list string :=
  match segments with
  | [] => [Py.strip text]
  | _ :: _ => map (fun s => Py.strip (default "" (seg_text s))) segments
  end.

(** The calls these translations make. *)
Definition translate_calls (translator : option (string -> exn + string))
    (texts : list string) : list call :=
  match translator with
  | None => []
  | Some _ => map CallTranslate texts
  end.

(** A world holding the audio file of the second sample chunk. *)
Definition second_chunk_world : world :=
  mkWorld (<["/d/movie_work/chunk_001.wav" := Wav]> ∅) None [].

(** What the transcriptions [ts] of the chunks [chunks], taken in order, add
    to [all_segments]. *)
Fixpoint contributions (translator : option (string -> exn + string))
    (chunks : list chunk) (ts : list (string * list segment)) : list entry :=
  match chunks, ts with
  | c :: chunks', t :: ts' =>
      contribution c translator (fst t) (snd t) ++ contributions translator chunks' ts'
  | _, _ => []
  end.

(** ** Ascending lists *)

(** The keys never decrease along the positions of the list. *)
Definition ascending (l : list entry) : Prop :=
  forall i j x y, i < j -> l !! i = Some x -> l !! j = Some y ->
                  (e_start x <= e_start y)%Q.

(** ** Cues *)



(** ** Runs as a whole *)

(** The code [c] never runs out of fuel: it returns or raises. *)
Definition halts {A} (c : M A) : Prop := forall w, fst (c w) <> Diverge.

(** Every run of [c] adds to the calls made so far, and only calls
    satisfying [P]. *)
Definition says (P : call -> Prop) {A} (c : M A) : Prop :=
  forall w o w', c w = (o, w') -> exists l, calls w' = calls w ++ l /\ Forall P l.

(** The calls of the segmentation: extraction of the sound track, the
    duration probe (without moviepy only) and the cuts. *)
Definition media_call (E : env) (c : call) : Prop :=
  match c with
  | CallExtractAudio _ _ | CallCutChunk _ _ _ _ => True
  | CallProbe _ => mpy E = None
  | _ => False
  end.

(** The calls of the loop over the chunks: progress messages when there is
    a callback, transcription requests when the service is selected and
    its library and a key are there, and then translations when there is a
    translator. *)
Definition chunk_call (E : env) (api_key : option string) (use_openai cb : bool)
    (c : call) : Prop :=
  match c with
  | CallProgress _ => cb = true
  | CallAudioTranscribe _ | CallTranscriptionCreate _ =>
      use_openai = true /\ is_Some (openai E) /\ is_Some api_key
  | CallTranslate _ =>
      use_openai = true /\ is_Some (openai E) /\ is_Some api_key /\
      is_Some (Translator E)
  | _ => False
  end.




(** ** The window *)

(** [s] holds white space only. *)
Fixpoint blank (s : string) : bool :=
  match s with
  | EmptyString => true
  | String a r => Py.isspace a && blank r
  end.

(** What the library functions [_run_job] relies on make of a string or an
    exception: [Path(video)], [os.path.dirname(video)] and [str(e)]. *)
Record platform : Type := mkPlatform {
  Path : string -> video;
  dirname : string -> string;
  str : exn -> string
}.

Module App.

(** A call of [messagebox]. *)
Inductive dialog : Type :=
| showerror (title message : string)
| showinfo (title message : string).

(** The window, by its three variables, the dialogs shown so far and the
    arguments of the worker threads started so far. *)
Record app : Type := mkApp {
  video_path_var : string;
  api_key_var : string;
  status_var : string;
  dialogs : list dialog;
  threads : list (string * string)
}.

Definition set_status (msg : string) (self : app) : app :=
  mkApp (video_path_var self) (api_key_var self) msg (dialogs self) (threads self).

Definition show (d : dialog) (self : app) : app :=
  mkApp (video_path_var self) (api_key_var self) (status_var self)
        (dialogs self ++ [d]) (threads self).

Definition start_thread (video api_key : string) (self : app) : app :=
  mkApp (video_path_var self) (api_key_var self) (status_var self)
        (dialogs self) (threads self ++ [(video, api_key)]).

(** Lines 190-200. *)
Definition start (self : app) : app :=
  let video := Py.strip (video_path_var self) in
  let api_key := Py.strip (api_key_var self) in
  if String.eqb video "" then
    show (showerror "Error" "Please choose a video file.") self
  else if String.eqb api_key "" then
    show (showerror "Error" "Please enter your OpenAI API key.") self
  else
    start_thread video api_key (set_status "Preparing..." self).

(** The status line after the progress messages among the calls [cs]: the
    callback [progress] of [_run_job] stores each message. *)
Definition after_progress (cs : list call) (self : app) : app :=
  foldl (fun a c => match c with CallProgress msg => set_status msg a | _ => a end)
        self cs.

(** Lines 202-211. *)
Definition _run_job (L : platform) (E : env) (video api_key : string)
    (self : app) (w : world) : outcome unit * (app * world) :=
  match process_file E (Path L video) (Some api_key) true
                     (Some (dirname L video)) true w with
  | (Ok srt, w') =>
      let self := after_progress (drop (length (calls w)) (calls w')) self in
      let self := set_status ("Completed. SRT saved: " +:+ srt) self in
      let self := show (showinfo "Done" ("SRT created:" +:+ nl +:+ srt)) self in
      (Ok tt, (self, w'))
  | (Raise e, w') =>
      let self := after_progress (drop (length (calls w)) (calls w')) self in
      let self := show (showerror "Error" (str L e)) self in
      let self := set_status ("Error: " +:+ str L e) self in
      (Ok tt, (self, w'))
  | (Diverge, w') =>
      (Diverge, (after_progress (drop (length (calls w)) (calls w')) self, w'))
  end.

End App.


Definition window_filled_in : App.app :=
  App.mkApp " /d/movie.mp4 " " key " "Ready" [] [].

Definition sample_platform : platform :=
  mkPlatform (fun _ => sample_video) (fun _ => "/d")
             (fun e => match e with
                       | RuntimeError msg | ExternalError msg => msg
                       | CalledProcessError tool => tool
                       | FileNotFoundError path => path
                       end).

(** ** Responses with sound times *)

(** The units of the transcription [t] of the chunk [c] come in the order
    of their local starts, which lie within the length of the chunk. *)
Definition well_timed (c : chunk) (t : string * list segment) : Prop :=
  Forall (fun s => (0 <= local_start s)%Q /\
                   (local_start s <= snd (fst c) - fst (fst c))%Q) (snd t) /\
  StronglySorted (fun x y => (local_start x <= local_start y)%Q) (snd t).

(** A service that hears two units, in order, in every chunk. *)
Definition orderly_sdk : openai_sdk :=
  mkSdk
    (fun _ => inr (mkResponse (Some "one two")
                     (Some [mkSegment (Some 0%Q) (Some 1%Q) (Some "one");
                            mkSegment (Some 2%Q) (Some 3%Q) (Some "two")])))
    (fun _ => inl (ExternalError "no such attribute")).
(** * Properties *)

(** ** Rationals and floors *)





Lemma int_inject_Z (z : Z) : Py.int (inject_Z z) = z.
Proof. unfold Py.int, inject_Z. simpl. apply Z.quot_1_r. Qed.




(** ** The fields of a timestamp *)

Section Timestamp.

Variable sec : Q.
Hypothesis sec_nonneg : (0 <= sec)%Q.








End Timestamp.

(** ** The shape of zero-padded fields *)

Lemma length_append (s t : string) :
  String.length (s +:+ t) = String.length s + String.length t.
Proof. induction s as [|a s IH]; simpl; [reflexivity | now rewrite IH]. Qed.







Lemma format_0d_nonneg (w : nat) (z : Z) :
  (0 <= z)%Z -> Py.format_0d w z = Py.zfill w (Py.str_nonneg z).
Proof.
  intros H. unfold Py.format_0d.
  destruct (Z.ltb_spec z 0); [lia | reflexivity].
Qed.









(** ** The monad, one step at a time *)

Lemma bind_Ok {A B} (m : M A) (k : A -> M B) (w w1 : world) (a : A) :
  m w = (Ok a, w1) -> bind m k w = k a w1.
Proof. intros H. unfold bind. now rewrite H. Qed.

Lemma bind_Raise {A B} (m : M A) (k : A -> M B) (w w1 : world) (e : exn) :
  m w = (Raise e, w1) -> bind m k w = (Raise e, w1).
Proof. intros H. unfold bind. now rewrite H. Qed.

Lemma bind_Ok_inv {A B} (m : M A) (k : A -> M B) (w w' : world) (b : B) :
  bind m k w = (Ok b, w') ->
  exists a w1, m w = (Ok a, w1) /\ k a w1 = (Ok b, w').
Proof.
  unfold bind. destruct (m w) as [[a | e |] w1]; intros H; try discriminate.
  now exists a, w1.
Qed.

Lemma bind_Raise_inv {A B} (m : M A) (k : A -> M B) (w w' : world) (e : exn) :
  bind m k w = (Raise e, w') ->
  m w = (Raise e, w') \/ exists a w1, m w = (Ok a, w1) /\ k a w1 = (Raise e, w').
Proof.
  unfold bind. destruct (m w) as [[a | e1 |] w1]; intros H; try discriminate.
  - right. now exists a, w1.
  - left. now injection H as <- <-.
Qed.

(** ** Segmenter *)

Lemma Qlt_bool_true (a b : Q) : Qlt_bool a b = true <-> (a < b)%Q.
Proof.
  unfold Qlt_bool. rewrite negb_true_iff, <- not_true_iff_false, Qle_bool_iff.
  split; [apply Qnot_le_lt | apply Qlt_not_le].
Qed.

Lemma Qlt_bool_false (a b : Q) : Qlt_bool a b = false <-> (b <= a)%Q.
Proof.
  unfold Qlt_bool. rewrite negb_false_iff. apply Qle_bool_iff.
Qed.

Lemma min_cases (a b : Q) :
  ((a <= b)%Q /\ Py.min a b = a) \/ ((b < a)%Q /\ Py.min a b = b).
Proof.
  unfold Py.min. destruct (Qle_bool a b) eqn:E.
  - left. split; [now apply Qle_bool_iff | reflexivity].
  - right. split; [| reflexivity].
    apply Qnot_le_lt. intros H. apply Qle_bool_iff in H. congruence.
Qed.

Section Segmenter.

Variables (E : env) (chunk_seconds : Q) (out_dir : string) (duration : Q).

Let chunk_path (idx : nat) : string :=
  path_join out_dir ("chunk_" +:+ Py.format_0d 3 (Z.of_nat idx) +:+ ".wav").

Let cut (start : Q) (idx : nat) : chunk :=
  (start, Py.min duration (start + chunk_seconds)%Q, chunk_path idx).

Let after_cut (start : Q) (idx : nat) (w : world) : world :=
  mkWorld (<[chunk_path idx := Wav]> (files w)) (openai_api_key w)
          (calls w ++ [CallCutChunk (path_join out_dir "full_audio.wav") start
                         (Py.min duration (start + chunk_seconds)%Q)
                         (chunk_path idx)]).

(** The loop leaves when [start] has reached the duration. *)
Lemma split_loop_exit fuel start idx chunks w :
  (duration <= start)%Q ->
  split_loop E chunk_seconds out_dir duration fuel start idx chunks w = (Ok chunks, w).
Proof.
  intros H. apply Qlt_bool_false in H.
  destruct fuel; simpl; rewrite H; reflexivity.
Qed.

(** One turn of the loop whose extraction succeeds. *)
Lemma split_loop_turn fuel start idx chunks w :
  (start < duration)%Q ->
  ffmpeg_cut E start (Py.min duration (start + chunk_seconds)%Q) (chunk_path idx) = true ->
  split_loop E chunk_seconds out_dir duration (S fuel) start idx chunks w =
  split_loop E chunk_seconds out_dir duration fuel (start + chunk_seconds)%Q (S idx)
             (chunks ++ [cut start idx]) (after_cut start idx w).
Proof.
  intros H Hc. apply Qlt_bool_true in H.
  simpl. rewrite H. fold (chunk_path idx).
  unfold check_call, bind, log, write_file. simpl. rewrite Hc. reflexivity.
Qed.

(** One turn of the loop whose extraction fails. *)
Lemma split_loop_cut_fails fuel start idx chunks w :
  (start < duration)%Q ->
  ffmpeg_cut E start (Py.min duration (start + chunk_seconds)%Q) (chunk_path idx) = false ->
  exists w', split_loop E chunk_seconds out_dir duration (S fuel) start idx chunks w =
             (Raise (CalledProcessError "ffmpeg"), w').
Proof.
  intros H Hc. apply Qlt_bool_true in H.
  simpl. rewrite H. fold (chunk_path idx).
  unfold check_call, bind, log, write_file. simpl. rewrite Hc. eauto.
Qed.

Hypothesis chunk_seconds_pos : (0 < chunk_seconds)%Q.

(** With [fuel] turns left and [start] within [fuel] chunks of the end, the
    loop finishes. *)
Lemma split_loop_finishes fuel :
  forall start idx chunks w,
  (duration - start < inject_Z (Z.of_nat fuel) * chunk_seconds)%Q ->
  fst (split_loop E chunk_seconds out_dir duration fuel start idx chunks w) <> Diverge.
Proof.
  induction fuel as [|fuel IH]; intros start idx chunks w Hf.
  - rewrite split_loop_exit; [discriminate |]. change (inject_Z (Z.of_nat 0)) with 0%Q in Hf. lra.
  - destruct (Qlt_le_dec start duration) as [Hlt | Hge].
    + destruct (ffmpeg_cut E start (Py.min duration (start + chunk_seconds)%Q)
                  (chunk_path idx)) eqn:Hc.
      * rewrite split_loop_turn by assumption. apply IH.
        rewrite Nat2Z.inj_succ, <- Z.add_1_r, inject_Z_plus in Hf.
        change (inject_Z 1) with 1%Q in Hf. lra.
      * destruct (split_loop_cut_fails fuel start idx chunks w Hlt Hc) as [w' ->].
        discriminate.
    + rewrite split_loop_exit by exact Hge. discriminate.
Qed.

Lemma fuel_for_enough :
  (duration - 0 < inject_Z (Z.of_nat (fuel_for chunk_seconds duration)) * chunk_seconds)%Q.
Proof.
  unfold fuel_for.
  pose proof (Qlt_floor (duration / chunk_seconds)) as Hfl.
  set (k := Qfloor (duration / chunk_seconds)) in *.
  assert (Hk : (inject_Z (k + 1) <= inject_Z (Z.of_nat (S (Z.to_nat k))))%Q).
  { rewrite <- Zle_Qle. lia. }
  assert (Hd : (duration == duration / chunk_seconds * chunk_seconds)%Q).
  { field. lra. }
  assert (H1 : (duration / chunk_seconds * chunk_seconds <
                inject_Z (k + 1) * chunk_seconds)%Q).
  { apply Qmult_lt_compat_r; assumption. }
  assert (H2 : (inject_Z (k + 1) * chunk_seconds <=
                inject_Z (Z.of_nat (S (Z.to_nat k))) * chunk_seconds)%Q).
  { apply Qmult_le_compat_r; [assumption | lra]. }
  rewrite <- Hd in H1. lra.
Qed.

(** What the loop appends: windows tiling the rest of the source. *)
Lemma split_loop_tiles fuel :
  forall start idx chunks w result w',
  split_loop E chunk_seconds out_dir duration fuel start idx chunks w = (Ok result, w') ->
  exists new, result = chunks ++ new /\
    ((start < duration)%Q -> tiles start duration (windows_of new)) /\
    ((duration <= start)%Q -> new = []).
Proof.
  induction fuel as [|fuel IH]; intros start idx chunks w result w' Hrun.
  - destruct (Qlt_le_dec start duration) as [Hlt | Hge].
    + apply Qlt_bool_true in Hlt. simpl in Hrun. rewrite Hlt in Hrun. discriminate.
    + rewrite split_loop_exit in Hrun by exact Hge. injection Hrun as <- <-.
      exists []. rewrite app_nil_r. split; [reflexivity |].
      split; [intros Hlt; lra | reflexivity].
  - destruct (Qlt_le_dec start duration) as [Hlt | Hge].
    + destruct (ffmpeg_cut E start (Py.min duration (start + chunk_seconds)%Q)
                  (chunk_path idx)) eqn:Hc.
      * rewrite split_loop_turn in Hrun by assumption.
        apply IH in Hrun as (new & -> & Hin & Hout).
        exists (cut start idx :: new). split; [now rewrite <- app_assoc |].
        split; [intros _ | lra].
        unfold cut. simpl.
        destruct (min_cases duration (start + chunk_seconds)%Q) as [[Hle ->] | [Hgt ->]].
        -- rewrite (Hout Hle). simpl.
           apply tiles_cons; [reflexivity | exact Hlt | apply tiles_nil; reflexivity].
        -- apply tiles_cons; [reflexivity | lra | exact (Hin Hgt)].
      * destruct (split_loop_cut_fails fuel start idx chunks w Hlt Hc) as [w'' Hr].
        rewrite Hr in Hrun. discriminate.
    + rewrite split_loop_exit in Hrun by exact Hge. injection Hrun as <- <-.
      exists []. rewrite app_nil_r. split; [reflexivity |].
      split; [intros Hlt; lra | reflexivity].
Qed.

(** The loop returns when every extraction succeeds. *)
Lemma split_loop_returns fuel :
  (forall s e p, ffmpeg_cut E s e p = true) ->
  forall start idx chunks w,
  (duration - start < inject_Z (Z.of_nat fuel) * chunk_seconds)%Q ->
  exists result w',
    split_loop E chunk_seconds out_dir duration fuel start idx chunks w = (Ok result, w').
Proof.
  intros Hcut. induction fuel as [|fuel IH]; intros start idx chunks w Hf.
  - rewrite split_loop_exit; [eauto |]. change (inject_Z (Z.of_nat 0)) with 0%Q in Hf. lra.
  - destruct (Qlt_le_dec start duration) as [Hlt | Hge].
    + rewrite split_loop_turn by auto. apply IH.
      rewrite Nat2Z.inj_succ, <- Z.add_1_r, inject_Z_plus in Hf.
      change (inject_Z 1) with 1%Q in Hf. lra.
    + rewrite split_loop_exit by exact Hge. eauto.
Qed.

End Segmenter.

(** *** What a tiling gives *)

Lemma tiles_within (a b : Q) (ws : list (Q * Q)) :
  tiles a b ws ->
  (a <= b)%Q /\
  forall j x, ws !! j = Some x -> (a <= fst x)%Q /\ (fst x < snd x)%Q /\ (snd x <= b)%Q.
Proof.
  induction 1 as [a b Hab | a b s e ws Has Hse Hrest [IHle IH]].
  - split; [lra | intros j x Hj; discriminate].
  - split; [lra |]. intros [|j] x Hj; simpl in Hj.
    + injection Hj as <-. simpl. lra.
    + destruct (IH j x Hj) as (H1 & H2 & H3). lra.
Qed.

Lemma tiles_first (a b : Q) (ws : list (Q * Q)) (x : Q * Q) :
  tiles a b ws -> head ws = Some x -> (fst x == a)%Q.
Proof.
  intros Ht Hx. destruct Ht as [a b Hab | a b s e ws Has Hse Hrest]; simpl in Hx.
  - discriminate.
  - injection Hx as <-. simpl. lra.
Qed.

Lemma tiles_last (a b : Q) (ws : list (Q * Q)) :
  tiles a b ws -> forall x, last ws = Some x -> (snd x == b)%Q.
Proof.
  induction 1 as [a b Hab | a b s e ws Has Hse Hrest IH]; intros x Hx.
  - discriminate.
  - destruct ws as [|y ws].
    + simpl in Hx. injection Hx as <-. simpl.
      inversion Hrest; subst. lra.
    + apply IH. exact Hx.
Qed.

Lemma tiles_adjacent (a b : Q) (ws : list (Q * Q)) :
  tiles a b ws ->
  forall i x y, ws !! i = Some x -> ws !! S i = Some y -> (snd x == fst y)%Q.
Proof.
  induction 1 as [a b Hab | a b s e ws Has Hse Hrest IH]; intros i x y Hx Hy.
  - discriminate.
  - destruct i as [|i]; simpl in Hx, Hy.
    + injection Hx as <-. simpl.
      destruct Hrest as [? ? ? | ? ? s' e' ws' ? ? ?]; simpl in Hy; [discriminate |].
      injection Hy as <-. simpl. lra.
    + exact (IH i x y Hx Hy).
Qed.

Lemma tiles_apart (a b : Q) (ws : list (Q * Q)) :
  tiles a b ws ->
  forall i j x y, i < j -> ws !! i = Some x -> ws !! j = Some y ->
  (snd x <= fst y)%Q.
Proof.
  induction 1 as [a b Hab | a b s e ws Has Hse Hrest IH]; intros i j x y Hij Hx Hy.
  - discriminate.
  - destruct j as [|j]; [lia |]. simpl in Hy.
    destruct i as [|i]; simpl in Hx.
    + injection Hx as <-. simpl.
      destruct (tiles_within _ _ _ Hrest) as [_ Hin].
      destruct (Hin j y Hy) as (H1 & _). exact H1.
    + apply (IH i j x y); [lia | assumption | assumption].
Qed.

Lemma tiles_cover (a b : Q) (ws : list (Q * Q)) :
  tiles a b ws ->
  forall t, (a <= t)%Q /\ (t < b)%Q <->
            exists x, x ∈ ws /\ (fst x <= t)%Q /\ (t < snd x)%Q.
Proof.
  induction 1 as [a b Hab | a b s e ws Has Hse Hrest IH]; intros t.
  - split.
    + intros [H1 H2]. lra.
    + intros (x & Hx & _). inversion Hx.
  - destruct (tiles_within _ _ _ Hrest) as [Hle _]. split.
    + intros [H1 H2]. destruct (Qlt_le_dec t e) as [Hte | Hte].
      * exists (s, e). split; [left |]. simpl. split; lra.
      * destruct (proj1 (IH t)) as (x & Hx & Hb); [split; lra |].
        exists x. split; [right; exact Hx | exact Hb].
    + intros (x & Hx & H1 & H2). apply elem_of_cons in Hx as [-> | Hx].
      * simpl in *. split; lra.
      * destruct (proj2 (IH t)) as [H3 H4]; [exists x; auto |]. split; lra.
Qed.

(** C1. For a positive chunk length and a non-negative duration the
    segmenter loop ends; it returns whenever the extractions succeed; and the
    windows it returns start at 0, each begins where the one before ends,
    none is empty and no two overlap, together they cover exactly the
    instants of [0, duration), and the last one ends at the duration.
    A source of 610 seconds cut in chunks of 300 gives [0,300), [300,600),
    [600,610). *)
Theorem segmenter_windows_tile_the_source :
  (forall (E : env) (chunk_seconds : Q) (out_dir : string) (duration : Q) (w : world),
     (0 < chunk_seconds)%Q -> (0 <= duration)%Q ->
     fst (segment_audio E chunk_seconds out_dir duration w) <> Diverge /\
     ((forall s e p, ffmpeg_cut E s e p = true) ->
      exists chunks w',
        segment_audio E chunk_seconds out_dir duration w = (Ok chunks, w')) /\
     forall chunks w',
       segment_audio E chunk_seconds out_dir duration w = (Ok chunks, w') ->
       let ws := windows_of chunks in
       (forall x, head ws = Some x -> (fst x == 0)%Q) /\
       (forall i x y, ws !! i = Some x -> ws !! S i = Some y -> (snd x == fst y)%Q) /\
       (forall x, x ∈ ws -> (fst x < snd x)%Q) /\
       (forall i j x y, i < j -> ws !! i = Some x -> ws !! j = Some y ->
                        (snd x <= fst y)%Q) /\
       (forall t, (0 <= t)%Q /\ (t < duration)%Q <->
                  exists x, x ∈ ws /\ (fst x <= t)%Q /\ (t < snd x)%Q) /\
       (forall x, last ws = Some x -> (snd x == duration)%Q)) /\
  (forall (E : env) (out_dir : string) (w : world),
     (forall s e p, ffmpeg_cut E s e p = true) ->
     exists chunks w',
       segment_audio E CHUNK_SECONDS out_dir 610%Q w = (Ok chunks, w') /\
       windows_of chunks = [(0, 300); (300, 600); (600, 610)]%Q).
Proof.
  split.
  - intros E cs out_dir duration w Hcs Hd.
    pose proof (fuel_for_enough cs duration Hcs) as Hfuel.
    split; [| split].
    + apply split_loop_finishes; assumption.
    + intros Hcut. apply split_loop_returns; assumption.
    + intros chunks w' Hrun ws.
      apply split_loop_tiles in Hrun as (new & -> & Hin & Hout); [| exact Hcs].
      simpl in ws.
      assert (Ht : tiles 0 duration ws).
      { destruct (Qlt_le_dec 0 duration) as [Hpos | Hzero].
        - exact (Hin Hpos).
        - subst ws. rewrite (Hout Hzero). apply tiles_nil. lra. }
      split; [intros x Hx; exact (tiles_first _ _ _ _ Ht Hx) |].
      split; [exact (tiles_adjacent _ _ _ Ht) |].
      split.
      { intros x Hx. apply list_elem_of_lookup in Hx as [j Hj].
        destruct (tiles_within _ _ _ Ht) as [_ Hw].
        destruct (Hw j x Hj) as (_ & H & _). exact H. }
      split; [exact (tiles_apart _ _ _ Ht) |].
      split; [exact (tiles_cover _ _ _ Ht) |].
      exact (tiles_last _ _ _ Ht).
  - intros E out_dir w Hcut. unfold segment_audio.
    change (fuel_for CHUNK_SECONDS 610) with 3.
    rewrite split_loop_turn by (auto; reflexivity).
    rewrite split_loop_turn by (auto; reflexivity).
    rewrite split_loop_turn by (auto; reflexivity).
    rewrite split_loop_exit by (apply Qle_bool_iff; reflexivity).
    eexists _, _. split; [reflexivity |]. vm_compute. reflexivity.
Qed.

(** A source of 750.5 seconds in chunks of 300: the segmenter returns, and
    its last window ends at 750.5. *)
Lemma segmenter_windows_tile_the_source_witness :
  (0 < 300)%Q /\ (0 <= 1501 # 2)%Q /\
  exists chunks w',
    segment_audio (mkEnv None (fun _ => true) (fun _ => inr (1501 # 2)%Q)
                         (fun _ _ _ => true) None None)
                  300%Q "work" (1501 # 2)%Q (mkWorld ∅ None []) = (Ok chunks, w') /\
    forall x, last (windows_of chunks) = Some x -> (snd x == 1501 # 2)%Q.
Proof.
  split; [reflexivity |]. split; [unfold Qle; simpl; lia |].
  destruct (proj1 segmenter_windows_tile_the_source
              (mkEnv None (fun _ => true) (fun _ => inr (1501 # 2)%Q)
                     (fun _ _ _ => true) None None)
              300%Q "work" (1501 # 2)%Q (mkWorld ∅ None []))
    as (_ & Hret & H); [reflexivity | unfold Qle; simpl; lia |].
  destruct Hret as (chunks & w' & Hrun); [reflexivity |].
  exists chunks, w'. split; [exact Hrun |].
  destruct (H chunks w' Hrun) as (_ & _ & _ & _ & _ & Hlast). exact Hlast.
Defined.

(** ** Ordering the timeline *)

Lemma insert_by_start_perm (x : entry) (l : list entry) :
  Permutation (insert_by_start x l) (x :: l).
Proof.
  induction l as [|y r IH]; simpl; [reflexivity |].
  destruct (Qle_bool (e_start x) (e_start y)); [reflexivity |].
  rewrite IH. apply perm_swap.
Qed.

Lemma sort_by_start_perm (l : list entry) : Permutation (sort_by_start l) l.
Proof.
  induction l as [|x r IH]; simpl; [reflexivity |].
  rewrite insert_by_start_perm. now apply perm_skip.
Qed.

Lemma insert_by_start_sorted (x : entry) (l : list entry) :
  StronglySorted start_le l -> StronglySorted start_le (insert_by_start x l).
Proof.
  induction 1 as [|y r Hr IH Hy]; simpl.
  - repeat constructor.
  - destruct (Qle_bool (e_start x) (e_start y)) eqn:Hxy.
    + apply Qle_bool_iff in Hxy. constructor; [now constructor |].
      constructor; [exact Hxy |].
      eapply List.Forall_impl; [| exact Hy].
      unfold start_le. intros z Hz. lra.
    + assert (Hyx : (e_start y <= e_start x)%Q).
      { apply Qlt_le_weak, Qnot_le_lt. intros H.
        apply Qle_bool_iff in H. congruence. }
      constructor; [exact IH |].
      rewrite insert_by_start_perm. constructor; assumption.
Qed.

Lemma sort_by_start_sorted (l : list entry) :
  StronglySorted start_le (sort_by_start l).
Proof.
  induction l as [|x r IH]; simpl; [constructor |].
  now apply insert_by_start_sorted.
Qed.

(** In a strongly sorted list the keys ascend along the positions. *)
Lemma sorted_positions (l : list entry) :
  StronglySorted start_le l ->
  forall i j x y, i < j -> l !! i = Some x -> l !! j = Some y -> start_le x y.
Proof.
  induction 1 as [|z r Hr IH Hz]; intros i j x y Hij Hx Hy; [discriminate |].
  destruct j as [|j]; [lia |]. simpl in Hy.
  destruct i as [|i]; simpl in Hx.
  - injection Hx as <-. rewrite Forall_forall in Hz.
    apply Hz. apply list_elem_of_lookup. eauto.
  - apply (IH i j); [lia | assumption | assumption].
Qed.

(** Insertion does not move [x] past an entry of the same key. *)
Lemma with_start_insert (k : Q) (x : entry) (l : list entry) :
  with_start k (insert_by_start x l) = with_start k (x :: l).
Proof.
  induction l as [|y r IH]; [reflexivity |].
  simpl. destruct (Qle_bool (e_start x) (e_start y)) eqn:Hxy; [reflexivity |].
  unfold with_start in *. simpl in *. rewrite IH.
  destruct (Qeq_bool (e_start x) k) eqn:Hx; [| reflexivity].
  destruct (Qeq_bool (e_start y) k) eqn:Hy; [| reflexivity].
  apply Qeq_bool_iff in Hx, Hy.
  assert (H : (e_start x <= e_start y)%Q) by lra.
  apply Qle_bool_iff in H. congruence.
Qed.

Lemma with_start_sort (k : Q) (l : list entry) :
  with_start k (sort_by_start l) = with_start k l.
Proof.
  induction l as [|x r IH]; [reflexivity |].
  simpl. rewrite with_start_insert. unfold with_start in *. simpl.
  now rewrite IH.
Qed.

(** ** The encoder writes [encode] *)

Lemma append_assoc (s t u : string) : (s +:+ t) +:+ u = s +:+ (t +:+ u).
Proof.
  induction s as [|a s IH]; [reflexivity |].
  change (String a ((s +:+ t) +:+ u) = String a (s +:+ (t +:+ u))).
  now rewrite IH.
Qed.

Lemma append_empty_r (s : string) : s +:+ "" = s.
Proof.
  induction s as [|a s IH]; [reflexivity |].
  change (String a (s +:+ "") = String a s). now rewrite IH.
Qed.

Lemma write_cues_run (srt_path : string) (timeline : list entry) :
  forall i w c,
  files w !! srt_path = Some (Txt c) ->
  write_cues srt_path i timeline w =
  (Ok tt, mkWorld (<[srt_path := Txt (c +:+ encode_from i timeline)]> (files w))
                  (openai_api_key w) (calls w)).
Proof.
  induction timeline as [|seg rest IH]; intros i w c Hc; simpl.
  - unfold ret. rewrite append_empty_r, insert_id by exact Hc. now destruct w.
  - unfold bind, append_file. rewrite Hc.
    rewrite (IH _ _ (c +:+ cue_block i seg)) by (simpl; apply lookup_insert_eq).
    simpl. now rewrite insert_insert_eq, append_assoc.
Qed.

Lemma segments_to_srt_run (timeline : list entry) (srt_path : string) (w : world) :
  segments_to_srt timeline srt_path w =
  (Ok tt, mkWorld (<[srt_path := Txt (encode timeline)]> (files w))
                  (openai_api_key w) (calls w)).
Proof.
  unfold segments_to_srt, bind, write_file.
  rewrite (write_cues_run _ _ _ _ "") by (simpl; apply lookup_insert_eq).
  simpl. now rewrite insert_insert_eq.
Qed.

(** ** A returning run of [process_file], taken apart *)

Lemma process_file_Ok_inv E v api_key use_openai output_dir cb w p w' :
  process_file E v api_key use_openai output_dir cb w = (Ok p, w') ->
  exists w0 chunks w1 all_segments w2,
    mkdir (work_dir_of v output_dir) w = (Ok tt, w0) /\
    split_audio E (video_str v) (work_dir_of v output_dir) w0 = (Ok chunks, w1) /\
    process_chunks E api_key use_openai (Translator E) cb (length chunks) 0 chunks [] w1
      = (Ok all_segments, w2) /\
    segments_to_srt (sort_by_start all_segments) (srt_path_of v output_dir) w2
      = (Ok tt, w') /\
    p = srt_path_of v output_dir /\
    files w' = <[srt_path_of v output_dir := Txt (encode (sort_by_start all_segments))]>
                 (files w2).
Proof.
  unfold process_file. intros H.
  apply bind_Ok_inv in H as ([] & w0 & H0 & H).
  apply bind_Ok_inv in H as (chunks & w1 & H1 & H).
  apply bind_Ok_inv in H as (all_segments & w2 & H2 & H).
  apply bind_Ok_inv in H as ([] & w3 & H3 & H).
  injection H as <- <-.
  exists w0, chunks, w1, all_segments, w2.
  repeat (split; [assumption || reflexivity |]).
  rewrite segments_to_srt_run in H3. injection H3 as <-. reflexivity.
Qed.

(** C3. [sort_by_start] rearranges the accumulated entries (nothing added
    or lost) so that the [start] keys never decrease along the list, and
    keeps the entries of equal key in the order they arrived in.  A run of
    [process_file] that returns has handed to the encoder exactly the
    sorted accumulation: the subtitle file holds its encoding. *)
Theorem timeline_sorted_by_start_stable :
  (forall l : list entry,
     Permutation (sort_by_start l) l /\
     (forall i j x y, i < j ->
        sort_by_start l !! i = Some x -> sort_by_start l !! j = Some y ->
        (e_start x <= e_start y)%Q) /\
     (forall k, with_start k (sort_by_start l) = with_start k l)) /\
  (forall E v api_key use_openai output_dir cb w p w',
     process_file E v api_key use_openai output_dir cb w = (Ok p, w') ->
     exists w0 chunks w1 all_segments w2,
       mkdir (work_dir_of v output_dir) w = (Ok tt, w0) /\
       split_audio E (video_str v) (work_dir_of v output_dir) w0 = (Ok chunks, w1) /\
       process_chunks E api_key use_openai (Translator E) cb (length chunks) 0
                      chunks [] w1 = (Ok all_segments, w2) /\
       segments_to_srt (sort_by_start all_segments) p w2 = (Ok tt, w') /\
       files w' !! p = Some (Txt (encode (sort_by_start all_segments)))).
Proof.
  split.
  - intros l. split; [apply sort_by_start_perm |]. split.
    + exact (sorted_positions _ (sort_by_start_sorted l)).
    + intros k. apply with_start_sort.
  - intros E v api_key use_openai output_dir cb w p w' Hrun.
    apply process_file_Ok_inv in Hrun
      as (w0 & chunks & w1 & all_segments & w2 & H0 & H1 & H2 & H3 & -> & Hf).
    exists w0, chunks, w1, all_segments, w2.
    repeat (split; [assumption |]).
    rewrite Hf. apply lookup_insert_eq.
Qed.

(** A run over 610 seconds whose service gives the units of a chunk out of
    order: the file holds the encoding of the sorted entries. *)
Lemma timeline_sorted_by_start_stable_witness :
  exists all_segments,
    files (snd (process_file (sample_env 610 (Some sample_sdk)) sample_video
                             (Some "key") true None true empty_world))
      !! "/d/movie.srt" = Some (Txt (encode (sort_by_start all_segments))).
Proof.
  destruct (proj2 timeline_sorted_by_start_stable
              (sample_env 610 (Some sample_sdk)) sample_video (Some "key") true
              None true empty_world "/d/movie.srt"
              (snd (process_file (sample_env 610 (Some sample_sdk)) sample_video
                                 (Some "key") true None true empty_world)))
    as (w0 & chunks & w1 & all_segments & w2 & _ & _ & _ & _ & Hfile).
  - vm_compute. reflexivity.
  - exists all_segments. exact Hfile.
Defined.

(** ** Translator adapter *)

Lemma translate_text_run (text : string) (translator : option (string -> exn + string))
    (w : world) :
  translate_text text translator w =
  (Ok (translation text translator),
   match translator with
   | None => w
   | Some _ => logged (CallTranslate text) w
   end).
Proof.
  destruct translator as [translate |]; [| reflexivity].
  unfold translate_text, translation, try_except, external, bind, log, logged.
  destruct (translate text); reflexivity.
Qed.

Lemma translate_text_files (text : string) (translator : option (string -> exn + string))
    (w : world) :
  files (snd (translate_text text translator w)) = files w.
Proof. rewrite translate_text_run. now destruct translator. Qed.

(** C4. [translate_text] always returns; without a translator, or when the
    call to the translator raises, what it returns is the input text
    unchanged.  With a translator that fails, "hello" comes back as
    "hello". *)
Theorem translate_text_fail_open :
  (forall text translator w, exists s w',
     translate_text text translator w = (Ok s, w')) /\
  (forall text w, translate_text text None w = (Ok text, w)) /\
  (forall text translate e w, translate text = inl e ->
     exists w', translate_text text (Some translate) w = (Ok text, w')) /\
  (forall e w, exists w',
     translate_text "hello" (Some (fun _ => inl e)) w = (Ok "hello", w')).
Proof.
  split; [| split; [| split]].
  - intros text translator w. rewrite translate_text_run. eauto.
  - reflexivity.
  - intros text translate e w H. rewrite translate_text_run.
    unfold translation. rewrite H. eauto.
  - intros e w. rewrite translate_text_run. eauto.
Qed.

(** A translator that times out only on "hello". *)
Lemma translate_text_fail_open_witness :
  exists w',
    translate_text "hello"
      (Some (fun t => if String.eqb t "hello" then inl (ExternalError "timed out")
                      else inr "ok"))
      (mkWorld ∅ None []) = (Ok "hello", w').
Proof.
  apply (proj1 (proj2 (proj2 translate_text_fail_open))
           "hello" _ (ExternalError "timed out")).
  reflexivity.
Defined.

(** ** Rebasing *)

Lemma rebase_segments_run (start : Q) (translator : option (string -> exn + string))
    (segments : list segment) :
  forall all_segments w, exists w',
    rebase_segments start translator segments all_segments w =
    (Ok (all_segments ++ map (rebased start translator) segments), w') /\
    files w' = files w.
Proof.
  induction segments as [|s rest IH]; intros all_segments w; simpl.
  - exists w. now rewrite app_nil_r.
  - unfold bind. rewrite translate_text_run.
    destruct (IH (all_segments ++
                  [mkEntry (start + default 0%Q (seg_start s))%Q
                           (start + default 0%Q (seg_end s))%Q
                           (Py.strip (default "" (seg_text s)))
                           (translation (Py.strip (default "" (seg_text s))) translator)])
                 (match translator with
                  | None => w
                  | Some _ => logged (CallTranslate (Py.strip (default "" (seg_text s)))) w
                  end)) as (w' & Hrun & Hfiles).
    exists w'. rewrite Hrun. split.
    + now rewrite <- app_assoc.
    + rewrite Hfiles. now destruct translator.
Qed.

(** What one transcription appends. *)
Lemma append_transcription_run (c : chunk) (translator : option (string -> exn + string))
    (text : string) (segments : list segment) (all_segments : list entry) (w : world) :
  exists w',
    append_transcription c translator text segments all_segments w =
    (Ok (all_segments ++
         match segments with
         | [] => [mkEntry (fst (fst c)) (snd (fst c)) (Py.strip text)
                          (translation (Py.strip text) translator)]
         | _ :: _ => map (rebased (fst (fst c)) translator) segments
         end), w') /\
    files w' = files w.
Proof.
  destruct c as [[start end_] path]. unfold append_transcription.
  destruct segments as [|s rest].
  - unfold bind. rewrite translate_text_run. simpl. eexists. split; [reflexivity |].
    now destruct translator.
  - apply rebase_segments_run.
Qed.

(** C2. The entries a chunk [(start, end, path)] adds to the timeline have
    their times rebased: global start and end are [start] plus the local
    start and end of the unit (or the window itself for the single entry
    made when the response has no units).  When [start <= end] and every
    unit has [0 <= local start <= local end <= end - start], every added
    entry lies within the window: [start <= global start <= global end
    <= end]. *)
Theorem rebased_entries_stay_in_window :
  forall (start end_ : Q) (path : string)
         (translator : option (string -> exn + string)) (text : string)
         (segments : list segment) (all_segments : list entry) (w : world),
  exists new w',
    append_transcription (start, end_, path) translator text segments all_segments w
      = (Ok (all_segments ++ new), w') /\
    (segments <> [] ->
     Forall2 (fun s x => e_start x = (start + local_start s)%Q /\
                         e_end x = (start + local_end s)%Q) segments new) /\
    (segments = [] ->
     exists zh, new = [mkEntry start end_ (Py.strip text) zh]) /\
    ((start <= end_)%Q ->
     Forall (fun s => (0 <= local_start s)%Q /\ (local_start s <= local_end s)%Q /\
                      (local_end s <= end_ - start)%Q) segments ->
     Forall (fun x => (start <= e_start x)%Q /\ (e_start x <= e_end x)%Q /\
                      (e_end x <= end_)%Q) new).
Proof.
  intros start end_ path translator text segments all_segments w.
  destruct (append_transcription_run (start, end_, path) translator text segments
              all_segments w) as (w' & Hrun & _).
  simpl in Hrun. eexists _, w'. split; [exact Hrun |]. clear Hrun.
  destruct segments as [|s rest].
  - split; [congruence |]. split; [eauto |].
    intros Hwin _. constructor; [| constructor]. simpl. lra.
  - split; [| split; [discriminate |]].
    + intros _. generalize (s :: rest). intros l.
      induction l as [|y l IH]; simpl; constructor; auto.
    + intros _ Hunits. generalize dependent (s :: rest). intros l Hunits.
      induction Hunits as [|y l (H1 & H2 & H3) Hl IH]; simpl; constructor.
      * simpl. lra.
      * exact IH.
Qed.

(** A chunk [300, 600) with one unit at [1.5, 4] local time. *)
Lemma rebased_entries_stay_in_window_witness :
  exists new w',
    append_transcription (300, 600, "chunk_001.wav")%Q None "hi"
      [mkSegment (Some (3 # 2)%Q) (Some 4%Q) (Some "hi")] []
      (mkWorld ∅ None []) = (Ok ([] ++ new), w') /\
    Forall (fun x => (300 <= e_start x)%Q /\ (e_start x <= e_end x)%Q /\
                     (e_end x <= 600)%Q) new.
Proof.
  destruct (rebased_entries_stay_in_window 300%Q 600%Q "chunk_001.wav" None "hi"
              [mkSegment (Some (3 # 2)%Q) (Some 4%Q) (Some "hi")] []
              (mkWorld ∅ None [])) as (new & w' & Hrun & _ & _ & Hin).
  exists new, w'. split; [exact Hrun |].
  apply Hin.
  - unfold Qle. simpl. lia.
  - constructor; [| constructor].
    unfold local_start, local_end, Qle. simpl. lia.
Defined.

(** ** Which files a run may change *)

Section Keeps.

Variable R : relation (gmap string node).
Variable W : string -> Prop.
Hypothesis R_refl : forall m, R m m.
Hypothesis R_trans : forall a b c, R a b -> R b c -> R a c.
Hypothesis R_write : forall m p n, W p -> R m (<[p := n]> m).

Lemma keeps_ret {A} (a : A) : keeps R (ret a).
Proof. intros w o w' H. injection H as <- <-. apply R_refl. Qed.

Lemma keeps_raise {A} (e : exn) : keeps R (@raise A e).
Proof. intros w o w' H. injection H as <- <-. apply R_refl. Qed.

Lemma keeps_diverge {A} : keeps R (@diverge A).
Proof. intros w o w' H. injection H as <- <-. apply R_refl. Qed.

Lemma keeps_bind {A B} (m : M A) (k : A -> M B) :
  keeps R m -> (forall a, keeps R (k a)) -> keeps R (bind m k).
Proof.
  intros Hm Hk w o w' H. unfold bind in H.
  destruct (m w) as [[a | e |] w1] eqn:Em.
  - eapply R_trans; [exact (Hm _ _ _ Em) | exact (Hk a _ _ _ H)].
  - injection H as <- <-. exact (Hm _ _ _ Em).
  - injection H as <- <-. exact (Hm _ _ _ Em).
Qed.

Lemma keeps_try_except {A} (body : M A) (handler : exn -> M A) :
  keeps R body -> (forall e, keeps R (handler e)) -> keeps R (try_except body handler).
Proof.
  intros Hb Hh w o w' H. unfold try_except in H.
  destruct (body w) as [[a | e |] w1] eqn:Eb.
  - injection H as <- <-. exact (Hb _ _ _ Eb).
  - eapply R_trans; [exact (Hb _ _ _ Eb) | exact (Hh e _ _ _ H)].
  - injection H as <- <-. exact (Hb _ _ _ Eb).
Qed.

Lemma keeps_log (c : call) : keeps R (log c).
Proof. intros w o w' H. injection H as <- <-. apply R_refl. Qed.

Lemma keeps_set_api_key (k : string) : keeps R (set_api_key k).
Proof. intros w o w' H. injection H as <- <-. apply R_refl. Qed.

Lemma keeps_open_rb (p : string) : keeps R (open_rb p).
Proof.
  intros w o w' H. unfold open_rb in H.
  destruct (files w !! p) as [[| |c] |]; injection H as <- <-; apply R_refl.
Qed.

Lemma keeps_external {A} (c : call) (r : exn + A) : keeps R (external c r).
Proof.
  apply keeps_bind; [apply keeps_log |].
  intros _. destruct r; [apply keeps_raise | apply keeps_ret].
Qed.

Lemma keeps_check_call (c : call) (tool : string) (ok : bool) :
  keeps R (check_call c tool ok).
Proof.
  apply keeps_bind; [apply keeps_log |].
  intros _. destruct ok; [apply keeps_ret | apply keeps_raise].
Qed.

Lemma keeps_progress (cb : bool) (msg : string) : keeps R (progress cb msg).
Proof. destruct cb; [apply keeps_log | apply keeps_ret]. Qed.

Lemma keeps_write_file (p : string) (n : node) : W p -> keeps R (write_file p n).
Proof. intros Hp w o w' H. injection H as <- <-. now apply R_write. Qed.

Lemma keeps_mkdir (p : string) : W p -> keeps R (mkdir p).
Proof.
  intros Hp w o w' H. unfold mkdir in H.
  destruct (files w !! p); injection H as <- <-; [apply R_refl | now apply R_write].
Qed.

Lemma keeps_append_file (p s : string) : W p -> keeps R (append_file p s).
Proof.
  intros Hp w o w' H. unfold append_file in H.
  destruct (files w !! p) as [[| |c] |]; injection H as <- <-;
    solve [apply R_refl | now apply R_write].
Qed.

Lemma keeps_translate_text text translator : keeps R (translate_text text translator).
Proof.
  destruct translator; [| apply keeps_ret].
  apply keeps_try_except; [apply keeps_external | intros _; apply keeps_ret].
Qed.

Lemma keeps_transcribe_chunk_openai E chunk_path api_key :
  keeps R (transcribe_chunk_openai E chunk_path api_key).
Proof.
  unfold transcribe_chunk_openai.
  destruct (openai E); [| apply keeps_raise].
  destruct api_key; [| apply keeps_raise].
  apply keeps_bind; [apply keeps_set_api_key | intros _].
  apply keeps_bind; [apply keeps_open_rb | intros _].
  apply keeps_try_except; [| intros _];
    (apply keeps_bind; [apply keeps_external | intros res; apply keeps_ret]).
Qed.

Lemma keeps_rebase_segments start translator segments :
  forall all_segments, keeps R (rebase_segments start translator segments all_segments).
Proof.
  induction segments as [|s rest IH]; intros all_segments; simpl.
  - apply keeps_ret.
  - apply keeps_bind; [apply keeps_translate_text | intros chi; apply IH].
Qed.

Lemma keeps_append_transcription c translator text segments all_segments :
  keeps R (append_transcription c translator text segments all_segments).
Proof.
  destruct c as [[start end_] path]. unfold append_transcription.
  destruct segments.
  - apply keeps_bind; [apply keeps_translate_text | intros chi; apply keeps_ret].
  - apply keeps_rebase_segments.
Qed.

Lemma keeps_process_chunk E api_key use_openai translator cb total idx c all_segments :
  keeps R (process_chunk E api_key use_openai translator cb total idx c all_segments).
Proof.
  destruct c as [[start end_] path]. unfold process_chunk.
  apply keeps_bind; [apply keeps_progress | intros _].
  apply keeps_bind.
  - destruct use_openai; [| apply keeps_raise].
    apply keeps_bind; [apply keeps_transcribe_chunk_openai | intros [text segments]].
    apply keeps_append_transcription.
  - intros acc. apply keeps_bind; [apply keeps_progress | intros _; apply keeps_ret].
Qed.

Lemma keeps_process_chunks E api_key use_openai translator cb total chunks :
  forall idx all_segments,
  keeps R (process_chunks E api_key use_openai translator cb total idx chunks all_segments).
Proof.
  induction chunks as [|c rest IH]; intros idx all_segments; simpl.
  - apply keeps_ret.
  - apply keeps_bind; [apply keeps_process_chunk | intros acc; apply IH].
Qed.

Lemma keeps_extract_full_audio E video_path out_dir :
  W out_dir -> W (path_join out_dir "full_audio.wav") ->
  keeps R (extract_full_audio E video_path out_dir).
Proof.
  intros Hd Ha. unfold extract_full_audio.
  apply keeps_bind; [now apply keeps_mkdir | intros _].
  destruct (mpy E).
  - apply keeps_bind; [apply keeps_external | intros d].
    apply keeps_bind; [now apply keeps_write_file | intros _; apply keeps_ret].
  - apply keeps_bind; [apply keeps_check_call | intros _].
    apply keeps_bind; [now apply keeps_write_file | intros _; apply keeps_external].
Qed.

Lemma keeps_split_loop E chunk_seconds out_dir duration fuel :
  (forall name, W (path_join out_dir name)) ->
  forall start idx chunks,
  keeps R (split_loop E chunk_seconds out_dir duration fuel start idx chunks).
Proof.
  intros HW. induction fuel as [|fuel IH]; intros start idx chunks; simpl;
    destruct (Qlt_bool start duration); try apply keeps_ret; [apply keeps_diverge |].
  apply keeps_bind; [apply keeps_check_call | intros _].
  apply keeps_bind; [apply keeps_write_file, HW | intros _; apply IH].
Qed.

Lemma keeps_split_audio E video_path out_dir :
  W out_dir -> (forall name, W (path_join out_dir name)) ->
  keeps R (split_audio E video_path out_dir).
Proof.
  intros Hd HW. unfold split_audio, split_audio_with.
  apply keeps_bind; [now apply keeps_extract_full_audio | intros d].
  now apply keeps_split_loop.
Qed.

Lemma keeps_segments_to_srt timeline srt_path :
  W srt_path -> keeps R (segments_to_srt timeline srt_path).
Proof.
  intros Hp. unfold segments_to_srt.
  apply keeps_bind; [now apply keeps_write_file | intros _].
  generalize 1. induction timeline as [|seg rest IH]; intros i; simpl.
  - apply keeps_ret.
  - apply keeps_bind; [now apply keeps_append_file | intros _; apply IH].
Qed.

End Keeps.

(** *** No path is ever lost *)

Lemma never_shrinks_refl m : never_shrinks m m.
Proof. intros p H. exact H. Qed.

Lemma never_shrinks_trans a b c :
  never_shrinks a b -> never_shrinks b c -> never_shrinks a c.
Proof. intros H1 H2 p H. apply H2, H1, H. Qed.

Lemma never_shrinks_write (m : gmap string node) p n :
  True -> never_shrinks m (<[p := n]> m).
Proof.
  intros _ q H. destruct (decide (p = q)) as [-> | Hne].
  - rewrite lookup_insert_eq. eauto.
  - now rewrite lookup_insert_ne.
Qed.

(** *** Nothing changes outside the work directory *)

Lemma same_outside_refl wd m : same_outside wd m m.
Proof. intros p H. reflexivity. Qed.

Lemma same_outside_trans wd a b c :
  same_outside wd a b -> same_outside wd b c -> same_outside wd a c.
Proof. intros H1 H2 p H. rewrite (H2 p H). apply H1, H. Qed.

Lemma same_outside_write wd (m : gmap string node) p n :
  in_work_dir wd p -> same_outside wd m (<[p := n]> m).
Proof.
  intros Hp q Hq. apply lookup_insert_ne. intros ->. contradiction.
Qed.

(** ** Paths *)

Lemma srt_path_outside_work_dir (v : video) (output_dir : option string) :
  ~ in_work_dir (work_dir_of v output_dir) (srt_path_of v output_dir).
Proof.
  unfold in_work_dir, srt_path_of, work_dir_of, path_join.
  set (out := output_dir_of v output_dir). set (stem := v_stem v).
  intros [H | [name H]].
  - apply (inj (String.append out)) in H.
    apply (inj (String.append "/")) in H.
    apply (inj (String.append stem)) in H. discriminate.
  - rewrite !append_assoc in H.
    apply (inj (String.append out)) in H.
    apply (inj (String.append "/")) in H.
    apply (inj (String.append stem)) in H. discriminate.
Qed.

(** ** Runs of the pipeline, taken apart *)

Lemma mkdir_Ok (p : string) (w : world) : exists w0, mkdir p w = (Ok tt, w0).
Proof. unfold mkdir. destruct (files w !! p); eauto. Qed.

Lemma progress_run (cb : bool) (msg : string) (w : world) :
  progress cb msg w = (Ok tt, snd (progress cb msg w)).
Proof. destruct cb; reflexivity. Qed.

(** After the segmentation, [process_file] is the loop over the chunks
    followed by the sort and the encoder. *)
Lemma process_file_after_split E v api_key use_openai output_dir cb w w0 chunks w1 :
  mkdir (work_dir_of v output_dir) w = (Ok tt, w0) ->
  split_audio E (video_str v) (work_dir_of v output_dir) w0 = (Ok chunks, w1) ->
  process_file E v api_key use_openai output_dir cb w =
  match process_chunks E api_key use_openai (Translator E) cb (length chunks) 0
                       chunks [] w1 with
  | (Ok all_segments, w2) =>
      (Ok (srt_path_of v output_dir),
       mkWorld (<[srt_path_of v output_dir := Txt (encode (sort_by_start all_segments))]>
                  (files w2))
               (openai_api_key w2) (calls w2))
  | (Raise e, w2) => (Raise e, w2)
  | (Diverge, w2) => (Diverge, w2)
  end.
Proof.
  intros H0 H1. unfold process_file.
  rewrite (bind_Ok _ _ _ _ _ H0), (bind_Ok _ _ _ _ _ H1).
  unfold bind at 1.
  destruct (process_chunks _ _ _ _ _ _ _ _ _ w1) as [[all_segments | e |] w2];
    try reflexivity.
  unfold bind. now rewrite segments_to_srt_run.
Qed.

Lemma process_file_Raise_inv E v api_key use_openai output_dir cb w e w' :
  process_file E v api_key use_openai output_dir cb w = (Raise e, w') ->
  exists w0, mkdir (work_dir_of v output_dir) w = (Ok tt, w0) /\
    (split_audio E (video_str v) (work_dir_of v output_dir) w0 = (Raise e, w') \/
     exists chunks w1,
       split_audio E (video_str v) (work_dir_of v output_dir) w0 = (Ok chunks, w1) /\
       process_chunks E api_key use_openai (Translator E) cb (length chunks) 0
                      chunks [] w1 = (Raise e, w')).
Proof.
  intros H. destruct (mkdir_Ok (work_dir_of v output_dir) w) as [w0 H0].
  exists w0. split; [exact H0 |].
  destruct (split_audio E (video_str v) (work_dir_of v output_dir) w0)
    as [[chunks | e1 |] w1] eqn:H1.
  - right. exists chunks, w1. split; [reflexivity |].
    rewrite (process_file_after_split _ _ _ _ _ _ _ _ _ _ H0 H1) in H.
    destruct (process_chunks _ _ _ _ _ _ _ _ _ w1) as [[all_segments | e2 |] w2];
      [discriminate | now injection H as <- <- | discriminate].
  - left. unfold process_file in H.
    rewrite (bind_Ok _ _ _ _ _ H0), (bind_Raise _ _ _ _ _ H1) in H.
    now injection H as <- <-.
  - unfold process_file in H. rewrite (bind_Ok _ _ _ _ _ H0) in H.
    unfold bind in H. rewrite H1 in H. discriminate.
Qed.

(** The loop over the chunks, one stretch after another. *)
Lemma process_chunks_app E api_key use_openai translator cb total pre post :
  forall idx all_segments w acc w1,
  process_chunks E api_key use_openai translator cb total idx pre all_segments w
    = (Ok acc, w1) ->
  process_chunks E api_key use_openai translator cb total idx (pre ++ post)
                 all_segments w =
  process_chunks E api_key use_openai translator cb total (idx + length pre) post acc w1.
Proof.
  induction pre as [|c pre IH]; intros idx all_segments w acc w1 H; simpl in *.
  - injection H as <- <-. now rewrite Nat.add_0_r.
  - apply bind_Ok_inv in H as (acc0 & w0 & Hc & H).
    rewrite (bind_Ok _ _ _ _ _ Hc), (IH _ _ _ _ _ H).
    f_equal. lia.
Qed.

(** A transcription that raises makes the loop over the chunks raise. *)
Lemma process_chunk_transcription_raises E api_key translator cb total idx
    start end_ path all_segments w e w' :
  transcribe_chunk_openai E path api_key (announced cb total idx w) = (Raise e, w') ->
  process_chunk E api_key true translator cb total idx (start, end_, path)
                all_segments w = (Raise e, w').
Proof.
  intros H. unfold process_chunk.
  rewrite (bind_Ok _ _ _ _ _ (progress_run _ _ _)). fold (announced cb total idx w).
  apply bind_Raise. apply bind_Raise. exact H.
Qed.

Lemma process_chunks_transcription_raises E api_key translator cb total
    pre start end_ path post w acc w1 e w' :
  process_chunks E api_key true translator cb total 0 pre [] w = (Ok acc, w1) ->
  transcribe_chunk_openai E path api_key (announced cb total (length pre) w1)
    = (Raise e, w') ->
  process_chunks E api_key true translator cb total 0
                 (pre ++ (start, end_, path) :: post) [] w = (Raise e, w').
Proof.
  intros Hpre Hraise. rewrite (process_chunks_app _ _ _ _ _ _ _ _ _ _ _ _ _ Hpre).
  simpl. apply bind_Raise.
  now apply process_chunk_transcription_raises.
Qed.

(** C7. A run of [process_file] that raises leaves the path of the subtitle
    file as it found it: the file is written by the last step only.  When
    the transcription of a chunk raises, after the chunks before it went
    through, [process_file] raises the same exception, in the world in
    which it was raised, and no subtitle file has been written. *)
Theorem failed_run_writes_no_subtitle_file :
  (forall E v api_key use_openai output_dir cb w e w',
     process_file E v api_key use_openai output_dir cb w = (Raise e, w') ->
     files w' !! srt_path_of v output_dir = files w !! srt_path_of v output_dir) /\
  (forall E v api_key output_dir cb w w0 pre start end_ path post w1 acc w2 e w3,
     mkdir (work_dir_of v output_dir) w = (Ok tt, w0) ->
     split_audio E (video_str v) (work_dir_of v output_dir) w0
       = (Ok (pre ++ (start, end_, path) :: post), w1) ->
     process_chunks E api_key true (Translator E) cb
                    (length (pre ++ (start, end_, path) :: post)) 0 pre [] w1
       = (Ok acc, w2) ->
     transcribe_chunk_openai E path api_key
       (announced cb (length (pre ++ (start, end_, path) :: post)) (length pre) w2)
       = (Raise e, w3) ->
     process_file E v api_key true output_dir cb w = (Raise e, w3) /\
     files w3 !! srt_path_of v output_dir = files w !! srt_path_of v output_dir).
Proof.
  assert (Hfail : forall E v api_key use_openai output_dir cb w e w',
     process_file E v api_key use_openai output_dir cb w = (Raise e, w') ->
     files w' !! srt_path_of v output_dir = files w !! srt_path_of v output_dir).
  { intros E v api_key use_openai output_dir cb w e w' H.
    set (wd := work_dir_of v output_dir).
    assert (Hwd : in_work_dir wd wd) by now left.
    assert (Hsub : forall name, in_work_dir wd (path_join wd name))
      by (intros name; right; eauto).
    pose proof (srt_path_outside_work_dir v output_dir) as Hsrt. fold wd in Hsrt.
    apply process_file_Raise_inv in H as (w0 & H0 & H).
    apply (keeps_mkdir (same_outside wd) (in_work_dir wd)
             (same_outside_refl wd) (same_outside_write wd) wd Hwd) in H0.
    rewrite <- (H0 _ Hsrt).
    destruct H as [H | (chunks & w1 & H1 & H)].
    - apply (keeps_split_audio (same_outside wd) (in_work_dir wd)
               (same_outside_refl wd) (same_outside_trans wd) (same_outside_write wd)
               _ _ _ Hwd Hsub) in H.
      exact (H _ Hsrt).
    - apply (keeps_split_audio (same_outside wd) (in_work_dir wd)
               (same_outside_refl wd) (same_outside_trans wd) (same_outside_write wd)
               _ _ _ Hwd Hsub) in H1.
      apply (keeps_process_chunks (same_outside wd)
               (same_outside_refl wd) (same_outside_trans wd)) in H.
      rewrite (H _ Hsrt). exact (H1 _ Hsrt). }
  split; [exact Hfail |].
  intros E v api_key output_dir cb w w0 pre start end_ path post w1 acc w2 e w3
         H0 H1 Hpre Hraise.
  assert (Hrun : process_file E v api_key true output_dir cb w = (Raise e, w3)).
  { rewrite (process_file_after_split _ _ _ _ _ _ _ _ _ _ H0 H1).
    now rewrite (process_chunks_transcription_raises _ _ _ _ _ _ _ _ _ _ _ _ _ _ _
                   Hpre Hraise). }
  split; [exact Hrun | exact (Hfail _ _ _ _ _ _ _ _ _ Hrun)].
Qed.

(** The service fails on the second of three chunks: the run raises what
    the second entry point raised and there is no subtitle file. *)
Lemma failed_run_writes_no_subtitle_file_witness :
  exists w3,
    process_file (sample_env 610 (Some failing_sdk)) sample_video (Some "key")
                 true None true empty_world
      = (Raise (ExternalError "quota exceeded"), w3) /\
    files w3 !! srt_path_of sample_video None = None.
Proof.
  pose (E := sample_env 610 (Some failing_sdk)).
  pose (w0 := snd (mkdir "/d/movie_work" empty_world)).
  pose (w1 := snd (split_audio E "/d/movie.mp4" "/d/movie_work" w0)).
  pose (pre := [(0, 300, "/d/movie_work/chunk_000.wav")]%Q : list chunk).
  pose (post := [(600, 610, "/d/movie_work/chunk_002.wav")]%Q : list chunk).
  pose (r2 := process_chunks E (Some "key") true None true 3 0 pre [] w1).
  pose (acc := match fst r2 with Ok a => a | _ => [] end).
  pose (r3 := transcribe_chunk_openai E "/d/movie_work/chunk_001.wav" (Some "key")
                (announced true 3 1 (snd r2))).
  destruct (proj2 failed_run_writes_no_subtitle_file
              E sample_video (Some "key") None true empty_world w0 pre
              300%Q 600%Q "/d/movie_work/chunk_001.wav" post w1 acc (snd r2)
              (ExternalError "quota exceeded") (snd r3)) as [Hrun Hfile];
    [vm_compute; reflexivity .. |].
  exists (snd r3). split; [exact Hrun |].
  rewrite Hfile. vm_compute. reflexivity.
Defined.

(** ** Segmentation leaves the audio files behind *)

Lemma extract_full_audio_files E video_path out_dir w d w1 :
  extract_full_audio E video_path out_dir w = (Ok d, w1) ->
  files w1 !! path_join out_dir "full_audio.wav" = Some Wav.
Proof.
  unfold extract_full_audio, bind, mkdir, external, check_call, bind, log,
    write_file, ret, raise.
  destruct (files w !! out_dir); destruct (mpy E) as [clip |]; simpl;
    repeat match goal with
    | |- context [match ?x with _ => _ end] => destruct x; simpl
    end;
    intros H; try discriminate; injection H as <- <-; simpl;
    apply lookup_insert_eq.
Qed.

Lemma split_loop_files E chunk_seconds out_dir duration fuel :
  forall start idx chunks w result w',
  split_loop E chunk_seconds out_dir duration fuel start idx chunks w = (Ok result, w') ->
  (forall p, files w !! p = Some Wav -> files w' !! p = Some Wav) /\
  forall c, c ∈ result ->
    c ∈ chunks \/ (files w' !! snd c = Some Wav /\ in_work_dir out_dir (snd c)).
Proof.
  induction fuel as [|fuel IH]; intros start idx chunks w result w' Hrun.
  - destruct (Qlt_le_dec start duration) as [Hlt | Hge].
    + apply Qlt_bool_true in Hlt. simpl in Hrun. rewrite Hlt in Hrun. discriminate.
    + rewrite split_loop_exit in Hrun by exact Hge. injection Hrun as <- <-. auto.
  - destruct (Qlt_le_dec start duration) as [Hlt | Hge].
    + destruct (ffmpeg_cut E start (Py.min duration (start + chunk_seconds)%Q)
                  (path_join out_dir
                     ("chunk_" +:+ Py.format_0d 3 (Z.of_nat idx) +:+ ".wav")))
        eqn:Hc.
      * rewrite split_loop_turn in Hrun by assumption.
        apply IH in Hrun as [Hkeep Hnew]. simpl in Hkeep. split.
        -- intros p Hp. apply Hkeep.
           destruct (decide
             (path_join out_dir ("chunk_" +:+ Py.format_0d 3 (Z.of_nat idx) +:+ ".wav")
              = p)) as [-> | Hne].
           ++ apply lookup_insert_eq.
           ++ now rewrite lookup_insert_ne.
        -- intros c Hc'. destruct (Hnew c Hc') as [Hin | Hw]; [| now right].
           apply elem_of_app in Hin as [Hin | Hin]; [now left | right].
           apply list_elem_of_singleton in Hin as ->. simpl. split.
           ++ apply Hkeep. apply lookup_insert_eq.
           ++ right. eauto.
      * destruct (split_loop_cut_fails E chunk_seconds out_dir duration fuel start idx
                    chunks w Hlt Hc) as [w'' Hr].
        rewrite Hr in Hrun. discriminate.
    + rewrite split_loop_exit in Hrun by exact Hge. injection Hrun as <- <-. auto.
Qed.

Lemma split_audio_files E video_path out_dir w chunks w1 :
  split_audio E video_path out_dir w = (Ok chunks, w1) ->
  files w1 !! path_join out_dir "full_audio.wav" = Some Wav /\
  forall c, c ∈ chunks ->
    files w1 !! snd c = Some Wav /\ in_work_dir out_dir (snd c).
Proof.
  unfold split_audio, split_audio_with. intros H.
  apply bind_Ok_inv in H as (d & wa & Ha & H).
  apply extract_full_audio_files in Ha.
  apply split_loop_files in H as [Hkeep Hnew]. split; [now apply Hkeep |].
  intros c Hc. destruct (Hnew c Hc) as [Hin | Hw]; [inversion Hin | exact Hw].
Qed.

(** ** Missing credentials *)

Lemma transcribe_without_credentials E chunk_path api_key w :
  openai E = None \/ api_key = None ->
  exists msg,
    (msg = "openai library not installed" \/ msg = "OpenAI API key not set") /\
    transcribe_chunk_openai E chunk_path api_key w = (Raise (RuntimeError msg), w).
Proof.
  unfold transcribe_chunk_openai. intros [H | H]; rewrite H.
  - eexists. split; [left; reflexivity | reflexivity].
  - destruct (openai E); eexists; (split; [| reflexivity]); auto.
Qed.

(** C6, as the code has it.  Let the key be missing or the [openai] library
    unavailable, and let the segmentation have returned.  If there is at
    least one chunk, the run raises the [RuntimeError] of
    [transcribe_chunk_openai] at the first chunk, in the world the
    segmentation left plus the first progress call: every chunk has been
    extracted already, while no transcription request, no translation and no
    subtitle file have been made.  If there is no chunk, the run returns and
    writes an empty subtitle file. *)
Theorem missing_credentials_fail_at_first_transcription :
  forall E v api_key output_dir cb w w0 chunks w1,
  openai E = None \/ api_key = None ->
  mkdir (work_dir_of v output_dir) w = (Ok tt, w0) ->
  split_audio E (video_str v) (work_dir_of v output_dir) w0 = (Ok chunks, w1) ->
  (chunks <> [] ->
   exists msg,
     (msg = "openai library not installed" \/ msg = "OpenAI API key not set") /\
     process_file E v api_key true output_dir cb w
       = (Raise (RuntimeError msg), announced cb (length chunks) 0 w1) /\
     forall c, c ∈ chunks ->
       files (announced cb (length chunks) 0 w1) !! snd c = Some Wav) /\
  (chunks = [] ->
   process_file E v api_key true output_dir cb w
     = (Ok (srt_path_of v output_dir),
        mkWorld (<[srt_path_of v output_dir := Txt ""]> (files w1))
                (openai_api_key w1) (calls w1))).
Proof.
  intros E v api_key output_dir cb w w0 chunks w1 Hmiss H0 H1.
  rewrite (process_file_after_split _ _ _ _ _ _ _ _ _ _ H0 H1).
  split.
  - intros Hne. destruct chunks as [|[[start end_] path] rest]; [congruence |].
    destruct (transcribe_without_credentials E path api_key
                (announced cb (length ((start, end_, path) :: rest)) 0 w1) Hmiss)
      as (msg & Hmsg & Hraise).
    exists msg. split; [exact Hmsg |]. split.
    + change ((start, end_, path) :: rest) with ([] ++ (start, end_, path) :: rest) at 2.
      now rewrite (process_chunks_transcription_raises _ _ _ _ _ [] _ _ _ _ _ _ _ _ _
                     eq_refl Hraise).
    + intros c Hc. apply split_audio_files in H1 as [_ Hfiles].
      destruct (Hfiles c Hc) as [Hwav _].
      unfold announced. destruct cb; exact Hwav.
  - intros ->. reflexivity.
Qed.

(** Without a key, over 610 seconds: the run fails at the first chunk, with
    the three chunk files extracted. *)
Lemma missing_credentials_fail_at_first_transcription_witness :
  exists msg w',
    process_file (sample_env 610 (Some sample_sdk)) sample_video None true None true
                 empty_world
      = (Raise (RuntimeError msg), w') /\
    files w' !! snd (600, 610, "/d/movie_work/chunk_002.wav")%Q = Some Wav.
Proof.
  pose (E := sample_env 610 (Some sample_sdk)).
  pose (w0 := snd (mkdir "/d/movie_work" empty_world)).
  pose (r1 := split_audio E "/d/movie.mp4" "/d/movie_work" w0).
  pose (chunks := match fst r1 with Ok l => l | _ => [] end).
  destruct (missing_credentials_fail_at_first_transcription
              E sample_video None None true empty_world w0 chunks (snd r1))
    as [Hfail _]; [now right | vm_compute; reflexivity .. |].
  destruct Hfail as (msg & _ & Hrun & Hfiles); [vm_compute; discriminate |].
  exists msg, (announced true (length chunks) 0 (snd r1)).
  split; [exact Hrun |]. apply Hfiles.
  apply list_elem_of_In. vm_compute. right. right. left. reflexivity.
Defined.

(** C6 as the spec has it fails.  Without a key, over 610 seconds, the run
    does end in a [RuntimeError], but not before chunk work: the chunks have
    been cut by then.  And over an empty source the run does not fail at
    all. *)
Lemma missing_credentials_abort_after_chunk_work :
  ~ (exists msg w',
       process_file (sample_env 610 (Some sample_sdk)) sample_video None true None
                    true empty_world = (Raise (RuntimeError msg), w') /\
       no_chunk_work w') /\
  fst (process_file (sample_env 0 None) sample_video None true None true empty_world)
    = Ok "/d/movie.srt".
Proof.
  split; [| vm_compute; reflexivity].
  intros (msg & w' & Hrun & Hnone).
  assert (Hw : w' = snd (process_file (sample_env 610 (Some sample_sdk)) sample_video
                           None true None true empty_world))
    by now rewrite Hrun.
  apply (Hnone (CallCutChunk "/d/movie_work/full_audio.wav" 0 300
                  "/d/movie_work/chunk_000.wav")).
  rewrite Hw. vm_compute. apply list_elem_of_In. right. left. reflexivity.
Qed.

(** ** Temporary audio files *)

Lemma process_chunks_same_files E api_key use_openai translator cb total chunks
    idx all_segments w o w' :
  process_chunks E api_key use_openai translator cb total idx chunks all_segments w
    = (o, w') ->
  files w' = files w.
Proof.
  intros H. symmetry.
  exact (keeps_process_chunks eq (fun m => eq_refl)
           (fun a b c (H1 : a = b) (H2 : b = c) => eq_trans H1 H2)
           E api_key use_openai translator cb total chunks idx all_segments
           w o w' H).
Qed.

Lemma process_file_never_shrinks E v api_key use_openai output_dir cb :
  keeps never_shrinks (process_file E v api_key use_openai output_dir cb).
Proof.
  pose proof never_shrinks_refl as Hr.
  pose proof never_shrinks_trans as Ht.
  pose proof never_shrinks_write as Hw.
  unfold process_file.
  apply keeps_bind; [assumption | now apply (keeps_mkdir _ (fun _ => True)) | intros _].
  apply keeps_bind;
    [assumption | now apply (keeps_split_audio _ (fun _ => True)) | intros chunks].
  apply keeps_bind; [assumption | now apply keeps_process_chunks | intros all_segments].
  apply keeps_bind;
    [assumption | now apply (keeps_segments_to_srt _ (fun _ => True)) | intros _].
  now apply keeps_ret.
Qed.

(** C9, as the code has it.  The pipeline deletes nothing: whatever the
    outcome of a run, every path present before it is present after it; and
    once the segmentation has returned, [full_audio.wav] and the audio file
    of every chunk are still in the work directory when [process_file]
    returns or raises. *)
Theorem audio_files_are_never_deleted :
  (forall E v api_key use_openai output_dir cb w o w',
     process_file E v api_key use_openai output_dir cb w = (o, w') ->
     forall p, is_Some (files w !! p) -> is_Some (files w' !! p)) /\
  (forall E v api_key use_openai output_dir cb w w0 chunks w1 o w',
     mkdir (work_dir_of v output_dir) w = (Ok tt, w0) ->
     split_audio E (video_str v) (work_dir_of v output_dir) w0 = (Ok chunks, w1) ->
     process_file E v api_key use_openai output_dir cb w = (o, w') ->
     files w' !! path_join (work_dir_of v output_dir) "full_audio.wav" = Some Wav /\
     forall c, c ∈ chunks -> files w' !! snd c = Some Wav).
Proof.
  split.
  - intros E v api_key use_openai output_dir cb w o w' Hrun.
    exact (process_file_never_shrinks E v api_key use_openai output_dir cb w o w' Hrun).
  - intros E v api_key use_openai output_dir cb w w0 chunks w1 o w' H0 H1 Hrun.
    pose proof (split_audio_files _ _ _ _ _ _ H1) as [Hfull Hchunks].
    assert (Hsame : forall p, in_work_dir (work_dir_of v output_dir) p ->
                              files w' !! p = files w1 !! p).
    { intros p Hp.
      rewrite (process_file_after_split _ _ _ _ _ _ _ _ _ _ H0 H1) in Hrun.
      destruct (process_chunks E api_key use_openai (Translator E) cb (length chunks) 0
                  chunks [] w1) as [[all_segments | e |] w2] eqn:H2;
        apply process_chunks_same_files in H2; injection Hrun as <- <-; simpl;
        rewrite <- H2; [| reflexivity | reflexivity].
      apply lookup_insert_ne. intros Heq. subst p.
      exact (srt_path_outside_work_dir v output_dir Hp). }
    split.
    + rewrite Hsame; [exact Hfull | right; eauto].
    + intros c Hc. destruct (Hchunks c Hc) as [Hwav Hin].
      now rewrite Hsame.
Qed.

(** After a run over 610 seconds that returns, the third chunk's audio file
    is still there. *)
Lemma audio_files_are_never_deleted_witness :
  exists o w',
    process_file (sample_env 610 (Some sample_sdk)) sample_video (Some "key") true
                 None true empty_world = (o, w') /\
    files w' !! snd (600, 610, "/d/movie_work/chunk_002.wav")%Q = Some Wav.
Proof.
  pose (E := sample_env 610 (Some sample_sdk)).
  pose (w0 := snd (mkdir "/d/movie_work" empty_world)).
  pose (r1 := split_audio E "/d/movie.mp4" "/d/movie_work" w0).
  pose (chunks := match fst r1 with Ok l => l | _ => [] end).
  pose (r := process_file E sample_video (Some "key") true None true empty_world).
  destruct (proj2 audio_files_are_never_deleted
              E sample_video (Some "key") true None true empty_world w0 chunks (snd r1)
              (fst r) (snd r))
    as [_ Hchunks]; [vm_compute; reflexivity .. | apply surjective_pairing |].
  exists (fst r), (snd r). split; [apply surjective_pairing |].
  apply Hchunks. apply list_elem_of_In. vm_compute. right. right. left. reflexivity.
Defined.

(** C9 as the spec has it fails: after a run that returns, and after a run
    that raises, audio files made by the segmentation remain. *)
Lemma temporary_audio_files_remain :
  ~ no_audio_left
      (snd (process_file (sample_env 610 (Some sample_sdk)) sample_video (Some "key")
                         true None true empty_world)) /\
  ~ no_audio_left
      (snd (process_file (sample_env 610 (Some failing_sdk)) sample_video (Some "key")
                         true None true empty_world)).
Proof.
  split; intros H.
  - apply (H "/d/movie_work/chunk_000.wav"). vm_compute. reflexivity.
  - apply (H "/d/movie_work/full_audio.wav"). vm_compute. reflexivity.
Qed.

(** ** Empty source *)

Lemma append_eq_empty (s t : string) : s +:+ t = "" -> s = "" /\ t = "".
Proof. destruct s; [auto | discriminate]. Qed.

Lemma srt_cues_empty (i n : nat) : srt_cues i n "" -> n = 0.
Proof.
  intros H. remember EmptyString as doc eqn:Hdoc.
  destruct H as [| i n t1 t2 eng chi rest _ _ _ _ _]; [reflexivity |].
  apply append_eq_empty in Hdoc as [_ Hdoc].
  apply append_eq_empty in Hdoc as [Hdoc _]. discriminate.
Qed.

(** C8. The encoding of the empty timeline is the empty text, which is a
    subtitle document of no cue, and of no other number of cues.  When the
    extracted sound track has duration 0 the segmenter returns no chunk, and
    [process_file] returns, having written the empty document to the
    subtitle file without any call after the extraction. *)
Theorem empty_source_gives_empty_document :
  encode [] = "" /\
  srt_document 0 "" /\
  (forall n, srt_document n "" -> n = 0) /\
  (forall E v api_key use_openai output_dir cb w w0 d w1,
     mkdir (work_dir_of v output_dir) w = (Ok tt, w0) ->
     extract_full_audio E (video_str v) (work_dir_of v output_dir) w0 = (Ok d, w1) ->
     (d == 0)%Q ->
     split_audio E (video_str v) (work_dir_of v output_dir) w0 = (Ok [], w1) /\
     exists w',
       process_file E v api_key use_openai output_dir cb w
         = (Ok (srt_path_of v output_dir), w') /\
       files w' !! srt_path_of v output_dir = Some (Txt (encode [])) /\
       calls w' = calls w1).
Proof.
  split; [reflexivity |]. split; [constructor |].
  split; [intros n; apply srt_cues_empty |].
  intros E v api_key use_openai output_dir cb w w0 d w1 H0 Hd Hzero.
  assert (H1 : split_audio E (video_str v) (work_dir_of v output_dir) w0 = (Ok [], w1)).
  { unfold split_audio, split_audio_with. rewrite (bind_Ok _ _ _ _ _ Hd).
    unfold segment_audio. apply split_loop_exit. lra. }
  split; [exact H1 |].
  rewrite (process_file_after_split _ _ _ _ _ _ _ _ _ _ H0 H1). simpl.
  eexists. split; [reflexivity |]. simpl. split; [apply lookup_insert_eq | reflexivity].
Qed.

(** A video whose sound track has duration 0, no key, no [openai]. *)
Lemma empty_source_gives_empty_document_witness :
  exists w',
    process_file (sample_env 0 None) sample_video None true None true empty_world
      = (Ok (srt_path_of sample_video None), w') /\
    files w' !! srt_path_of sample_video None = Some (Txt (encode [])).
Proof.
  pose (E := sample_env 0 None).
  pose (w0 := snd (mkdir "/d/movie_work" empty_world)).
  pose (r1 := extract_full_audio E "/d/movie.mp4" "/d/movie_work" w0).
  destruct (proj2 (proj2 (proj2 empty_source_gives_empty_document))
              E sample_video None true None true empty_world w0 0%Q (snd r1))
    as [_ (w' & Hrun & Hfile & _)]; [vm_compute; reflexivity .. | reflexivity |].
  exists w'. split; [exact Hrun | exact Hfile].
Defined.

(** ** From a chunk to its cues *)

Lemma process_chunk_Ok_inv E api_key use_openai translator cb total idx c
    all_segments w acc w' :
  process_chunk E api_key use_openai translator cb total idx c all_segments w
    = (Ok acc, w') ->
  exists text segments wb,
    transcribe_chunk_openai E (snd c) api_key (announced cb total idx w)
      = (Ok (text, segments), wb) /\
    acc = all_segments ++ contribution c translator text segments.
Proof.
  destruct c as [[start end_] path]. unfold process_chunk. intros H.
  rewrite (bind_Ok _ _ _ _ _ (progress_run _ _ _)) in H.
  fold (announced cb total idx w) in H.
  apply bind_Ok_inv in H as (acc1 & w1 & Hbody & H).
  rewrite (bind_Ok _ _ _ _ _ (progress_run _ _ _)) in H. injection H as <- _.
  destruct use_openai; [| discriminate].
  apply bind_Ok_inv in Hbody as ([text segments] & wb & Htr & Happ).
  exists text, segments, wb. split; [exact Htr |].
  destruct (append_transcription_run (start, end_, path) translator text segments
              all_segments wb) as (w2 & Hrun & _).
  rewrite Hrun in Happ. injection Happ as <- _. reflexivity.
Qed.








(** * Further properties *)

(** ** The segmenter as a counted loop *)

Lemma Qceiling_unique (x : Q) (z : Z) :
  (inject_Z (z - 1) < x)%Q -> (x <= inject_Z z)%Q -> Qceiling x = z.
Proof.
  intros Hlo Hhi.
  pose proof (Qle_ceiling x) as H1. pose proof (Qceiling_lt x) as H2.
  assert (A : (inject_Z (z - 1) < inject_Z (Qceiling x))%Q) by lra.
  assert (B : (inject_Z (Qceiling x - 1) < inject_Z z)%Q) by lra.
  rewrite <- Zlt_Qlt in A, B. lia.
Qed.

Section CountedLoop.

Variables (E : env) (chunk_seconds : Q) (out_dir : string) (duration : Q).
Hypothesis chunk_seconds_pos : (0 < chunk_seconds)%Q.

Lemma turns_left_done (start : Q) :
  (duration <= start)%Q -> turns_left chunk_seconds duration start = 0.
Proof.
  intros H. unfold turns_left.
  assert (Hq : ((duration - start) / chunk_seconds <= 0)%Q).
  { apply Qle_shift_div_r; [exact chunk_seconds_pos | lra]. }
  apply Qceiling_resp_le in Hq. change (Qceiling 0) with 0%Z in Hq. lia.
Qed.

Lemma turns_left_more (start : Q) :
  (start < duration)%Q ->
  turns_left chunk_seconds duration start =
  S (turns_left chunk_seconds duration (start + chunk_seconds)).
Proof.
  intros H. unfold turns_left.
  set (x := ((duration - (start + chunk_seconds)) / chunk_seconds)%Q).
  assert (Hx : ((duration - start) / chunk_seconds == x + 1)%Q).
  { unfold x. field. lra. }
  assert (Hpos : (-1 < x)%Q).
  { assert (0 < (duration - start) / chunk_seconds)%Q.
    { apply Qlt_shift_div_l; [exact chunk_seconds_pos | lra]. }
    lra. }
  assert (Hc : (0 <= Qceiling x)%Z).
  { pose proof (Qle_ceiling x) as H1.
    assert (A : (inject_Z (-1) < inject_Z (Qceiling x))%Q)
      by (change (inject_Z (-1)) with (-1)%Q; lra).
    rewrite <- Zlt_Qlt in A. lia. }
  rewrite (Qceiling_comp _ _ Hx).
  rewrite (Qceiling_unique (x + 1) (Qceiling x + 1)).
  - rewrite Z2Nat.inj_add by lia. simpl. lia.
  - pose proof (Qceiling_lt x) as H2.
    replace (Qceiling x + 1 - 1)%Z with (Qceiling x - 1 + 1)%Z by lia.
    rewrite inject_Z_plus. change (inject_Z 1) with 1%Q. lra.
  - pose proof (Qle_ceiling x) as H1.
    rewrite inject_Z_plus. change (inject_Z 1) with 1%Q. lra.
Qed.

Lemma after_cuts_snoc (done : list chunk) (c : chunk) (w : world) :
  mkWorld (<[snd c := Wav]> (files (after_cuts out_dir done w)))
          (openai_api_key (after_cuts out_dir done w))
          (calls (after_cuts out_dir done w) ++ [cut_call out_dir c])
  = after_cuts out_dir (done ++ [c]) w.
Proof.
  unfold after_cuts. simpl. rewrite foldl_app, map_app, <- app_assoc. reflexivity.
Qed.

(** With enough fuel the [while] loop is the counted loop over the turns
    that are left. *)
Lemma split_loop_counted (fuel : nat) :
  forall start idx chunks done w,
  turns_left chunk_seconds duration start <= fuel ->
  split_loop E chunk_seconds out_dir duration fuel start idx (chunks ++ done)
             (after_cuts out_dir done w) =
  match cut_all E out_dir done
          (chunks_from chunk_seconds out_dir duration
             (turns_left chunk_seconds duration start) start idx) w with
  | (Ok new, w') => (Ok (chunks ++ new), w')
  | r => r
  end.
Proof.
  induction fuel as [|fuel IH]; intros start idx chunks done w Hfuel;
    destruct (Qlt_le_dec start duration) as [Hlt | Hge].
  - rewrite (turns_left_more start Hlt) in Hfuel. lia.
  - rewrite split_loop_exit by exact Hge. now rewrite (turns_left_done start Hge).
  - rewrite (turns_left_more start Hlt) in *. cbn [chunks_from cut_all].
    set (c := chunk_at chunk_seconds out_dir duration start idx).
    destruct (cut_ok E c) eqn:Hc.
    + rewrite split_loop_turn by assumption.
      fold (chunk_at chunk_seconds out_dir duration start idx). fold c.
      change (path_join out_dir ("chunk_" +:+ Py.format_0d 3 (Z.of_nat idx) +:+ ".wav"))
        with (snd c).
      change (CallCutChunk (path_join out_dir "full_audio.wav") start
                (Py.min duration (start + chunk_seconds)) (snd c))
        with (cut_call out_dir c).
      rewrite after_cuts_snoc, <- app_assoc. apply IH. lia.
    + apply Qlt_bool_true in Hlt. cbn [split_loop]. rewrite Hlt.
      unfold check_call, bind, log. simpl.
      change (ffmpeg_cut E start (Py.min duration (start + chunk_seconds))
                (path_join out_dir
                   ("chunk_" +:+ Py.format_0d 3 (Z.of_nat idx) +:+ ".wav")))
        with (cut_ok E c).
      rewrite Hc. reflexivity.
  - rewrite split_loop_exit by exact Hge. now rewrite (turns_left_done start Hge).
Qed.

Lemma fuel_for_covers :
  turns_left chunk_seconds duration 0 <= fuel_for chunk_seconds duration.
Proof.
  unfold turns_left, fuel_for.
  assert (Hx : ((duration - 0) / chunk_seconds == duration / chunk_seconds)%Q)
    by (field; lra).
  rewrite (Qceiling_comp _ _ Hx).
  pose proof (Qle_floor_ceiling (duration / chunk_seconds)) as H1.
  pose proof (Qlt_floor (duration / chunk_seconds)) as H2.
  pose proof (Qceiling_lt (duration / chunk_seconds)) as H3.
  assert (A : (inject_Z (Qceiling (duration / chunk_seconds) - 1) <
               inject_Z (Qfloor (duration / chunk_seconds) + 1))%Q) by lra.
  rewrite <- Zlt_Qlt in A. lia.
Qed.

(** [segment_audio] cuts, in turn, the chunks of the counted loop. *)
Lemma segment_audio_counted (w : world) :
  segment_audio E chunk_seconds out_dir duration w =
  cut_all E out_dir []
    (chunks_from chunk_seconds out_dir duration
       (turns_left chunk_seconds duration 0) 0%Q 0) w.
Proof.
  unfold segment_audio.
  pose proof (split_loop_counted (fuel_for chunk_seconds duration) 0%Q 0 [] [] w
                fuel_for_covers) as H.
  assert (Hw : after_cuts out_dir [] w = w).
  { unfold after_cuts. simpl. rewrite app_nil_r. now destruct w. }
  rewrite Hw in H. change ([] ++ []) with (@nil chunk) in H. rewrite H.
  destruct (cut_all E out_dir [] _ w) as [[new | e |] w']; reflexivity.
Qed.

End CountedLoop.

(** *** What cutting the chunks does *)

Lemma after_cuts_lookup (out_dir : string) (done : list chunk) (w : world) (p : string) :
  files (after_cuts out_dir done w) !! p =
  if decide (p ∈ map snd done) then Some Wav else files w !! p.
Proof.
  unfold after_cuts. simpl. revert w.
  induction done as [|c done IH] using rev_ind; intros w.
  - simpl. destruct (decide (p ∈ [])) as [H | H]; [inversion H | reflexivity].
  - rewrite foldl_app, map_app. simpl.
    destruct (decide (snd c = p)) as [Heq | Hne].
    + rewrite Heq, lookup_insert_eq, decide_True; [reflexivity |].
      apply elem_of_app. right. left.
    + rewrite lookup_insert_ne by exact Hne. rewrite IH.
      destruct (decide (p ∈ map snd done)) as [H1 | H1].
      * rewrite decide_True; [reflexivity |]. apply elem_of_app. now left.
      * rewrite decide_False; [reflexivity |].
        intros H2. apply elem_of_app in H2 as [H2 | H2]; [contradiction |].
        apply list_elem_of_singleton in H2. congruence.
Qed.

Lemma cut_all_succeeds (E : env) (out_dir : string) (todo : list chunk) :
  forall done w,
  forallb (cut_ok E) todo = true ->
  cut_all E out_dir done todo w = (Ok (done ++ todo), after_cuts out_dir (done ++ todo) w).
Proof.
  induction todo as [|c rest IH]; intros done w H; simpl in *.
  - now rewrite app_nil_r.
  - apply andb_true_iff in H as [Hc Hrest]. rewrite Hc, IH by exact Hrest.
    now rewrite <- app_assoc.
Qed.

Lemma cut_all_fails (E : env) (out_dir : string) (pre : list chunk) (c : chunk)
    (post : list chunk) :
  forall done w,
  forallb (cut_ok E) pre = true -> cut_ok E c = false ->
  cut_all E out_dir done (pre ++ c :: post) w =
  (Raise (CalledProcessError "ffmpeg"), after_failed_cut out_dir (done ++ pre) c w).
Proof.
  induction pre as [|x pre IH]; intros done w Hpre Hc; simpl in *.
  - now rewrite Hc, app_nil_r.
  - apply andb_true_iff in Hpre as [Hx Hpre]. rewrite Hx, IH by assumption.
    now rewrite <- app_assoc.
Qed.

Lemma length_chunks_from cs out_dir duration n :
  forall start idx, length (chunks_from cs out_dir duration n start idx) = n.
Proof. induction n as [|n IH]; intros start idx; simpl; [| rewrite IH]; reflexivity. Qed.

(** X1. For a positive chunk length, [segment_audio] cuts, in turn, the
    chunks of a counted loop of ceiling([duration] / [chunk_seconds]) turns.
    When every cut succeeds it returns them all, having made one ffmpeg
    call per chunk, in order, and one audio file per chunk, and changed
    nothing else.  When a cut fails it raises [CalledProcessError] at the
    first that fails: the chunks before it have their files, the failed
    call is the last one logged. *)
Theorem segment_audio_is_a_counted_loop :
  forall (E : env) (chunk_seconds : Q) (out_dir : string) (duration : Q) (w : world),
  (0 < chunk_seconds)%Q ->
  let expected :=
    chunks_from chunk_seconds out_dir duration
                (Z.to_nat (Qceiling (duration / chunk_seconds))) 0%Q 0 in
  length expected = Z.to_nat (Qceiling (duration / chunk_seconds)) /\
  (forallb (cut_ok E) expected = true ->
   exists w',
     segment_audio E chunk_seconds out_dir duration w = (Ok expected, w') /\
     calls w' = calls w ++ map (cut_call out_dir) expected /\
     openai_api_key w' = openai_api_key w /\
     forall p, files w' !! p =
               if decide (p ∈ map snd expected) then Some Wav else files w !! p) /\
  (forall pre c post,
     expected = pre ++ c :: post ->
     forallb (cut_ok E) pre = true -> cut_ok E c = false ->
     exists w',
       segment_audio E chunk_seconds out_dir duration w
         = (Raise (CalledProcessError "ffmpeg"), w') /\
       calls w' = calls w ++ map (cut_call out_dir) (pre ++ [c]) /\
       forall p, files w' !! p =
                 if decide (p ∈ map snd pre) then Some Wav else files w !! p).
Proof.
  intros E cs out_dir duration w Hcs expected.
  assert (Hturns : turns_left cs duration 0 = Z.to_nat (Qceiling (duration / cs))).
  { unfold turns_left. f_equal. apply Qceiling_comp. field. lra. }
  pose proof (segment_audio_counted E cs out_dir duration Hcs w) as Hrun.
  rewrite Hturns in Hrun. fold expected in Hrun.
  split; [apply length_chunks_from |]. split.
  - intros Hok. rewrite (cut_all_succeeds _ _ _ [] w Hok) in Hrun.
    eexists. split; [exact Hrun |]. simpl.
    split; [reflexivity |]. split; [reflexivity |].
    intros p. apply (after_cuts_lookup out_dir expected w p).
  - intros pre c post Hsplit Hpre Hc.
    rewrite Hsplit, (cut_all_fails _ _ _ _ _ [] w Hpre Hc) in Hrun.
    eexists. split; [exact Hrun |]. simpl. split.
    + rewrite map_app, <- app_assoc. reflexivity.
    + intros p. apply (after_cuts_lookup out_dir pre w p).
Qed.

(** ffmpeg fails on the chunk that starts at 300: over 610 seconds the
    first chunk is cut and the second raises. *)
Lemma segment_audio_is_a_counted_loop_witness :
  exists w',
    segment_audio
      (mkEnv None (fun _ => true) (fun _ => inr 610%Q)
             (fun s _ _ => negb (Qeq_bool s 300)) None None)
      CHUNK_SECONDS "work" 610%Q empty_world
      = (Raise (CalledProcessError "ffmpeg"), w') /\
    files w' !! "work/chunk_000.wav" = Some Wav /\
    files w' !! "work/chunk_001.wav" = None.
Proof.
  destruct (segment_audio_is_a_counted_loop
              (mkEnv None (fun _ => true) (fun _ => inr 610%Q)
                     (fun s _ _ => negb (Qeq_bool s 300)) None None)
              CHUNK_SECONDS "work" 610%Q empty_world)
    as (_ & _ & Hfail); [reflexivity |].
  destruct (Hfail [chunk_at CHUNK_SECONDS "work" 610 0 0]
                  (chunk_at CHUNK_SECONDS "work" 610 (0 + CHUNK_SECONDS) 1)
                  [chunk_at CHUNK_SECONDS "work" 610
                            (0 + CHUNK_SECONDS + CHUNK_SECONDS) 2])
    as (w' & Hrun & _ & Hfiles); [reflexivity .. |].
  exists w'. split; [exact Hrun |].
  split; rewrite Hfiles; vm_compute; reflexivity.
Defined.

(** *** The chunks of the counted loop, one by one *)

Lemma cut_all_Ok_inv (E : env) (out_dir : string) (todo : list chunk) :
  forall done w r w', cut_all E out_dir done todo w = (Ok r, w') -> r = done ++ todo.
Proof.
  induction todo as [|c rest IH]; intros done w r w' H; simpl in H.
  - injection H as <- _. now rewrite app_nil_r.
  - destruct (cut_ok E c); [| discriminate].
    apply IH in H. now rewrite <- app_assoc in H.
Qed.

Section Windows.

Variables (chunk_seconds : Q) (out_dir : string) (duration : Q).
Hypothesis chunk_seconds_pos : (0 < chunk_seconds)%Q.

Lemma turns_left_zero (start : Q) :
  turns_left chunk_seconds duration start = 0 -> (duration <= start)%Q.
Proof.
  intros H. destruct (Qlt_le_dec start duration) as [Hlt | Hge]; [| exact Hge].
  rewrite (turns_left_more chunk_seconds duration chunk_seconds_pos start Hlt) in H.
  discriminate.
Qed.

Lemma chunks_from_nth (n : nat) :
  forall start idx i c,
  n = turns_left chunk_seconds duration start ->
  chunks_from chunk_seconds out_dir duration n start idx !! i = Some c ->
  (fst (fst c) == start + inject_Z (Z.of_nat i) * chunk_seconds)%Q /\
  (S i < n -> snd (fst c) = (fst (fst c) + chunk_seconds)%Q /\
              (fst (fst c) + chunk_seconds < duration)%Q) /\
  (S i = n -> snd (fst c) = duration /\
              (fst (fst c) < duration)%Q /\
              (duration <= fst (fst c) + chunk_seconds)%Q) /\
  snd c = path_join out_dir
            ("chunk_" +:+ Py.format_0d 3 (Z.of_nat (idx + i)) +:+ ".wav").
Proof.
  induction n as [|n IH]; intros start idx i c Hn Hc; [discriminate |].
  assert (Hlt : (start < duration)%Q).
  { apply Qnot_le_lt. intros Hge.
    rewrite (turns_left_done chunk_seconds duration chunk_seconds_pos start Hge) in Hn.
    discriminate. }
  rewrite (turns_left_more chunk_seconds duration chunk_seconds_pos start Hlt) in Hn.
  apply Nat.succ_inj in Hn.
  destruct i as [|i]; simpl in Hc.
  - injection Hc as <-. unfold chunk_at. simpl.
    split; [change (inject_Z (Z.of_nat 0)) with 0%Q; lra |].
    split; [| split; [| now rewrite Nat.add_0_r]].
    + intros Hmore.
      assert (Hnext : (start + chunk_seconds < duration)%Q).
      { apply Qnot_le_lt. intros Hge.
        rewrite (turns_left_done chunk_seconds duration chunk_seconds_pos _ Hge) in Hn.
        lia. }
      split; [| exact Hnext].
      destruct (min_cases duration (start + chunk_seconds)%Q) as [[Hle _] | [_ ->]];
        [lra | reflexivity].
    + intros Hlast. assert (H0 : n = 0) by lia. rewrite H0 in Hn.
      symmetry in Hn. apply turns_left_zero in Hn.
      split; [| split; [exact Hlt | exact Hn]].
      destruct (min_cases duration (start + chunk_seconds)%Q) as [[_ ->] | [Hgt _]];
        [reflexivity | lra].
  - destruct (IH _ _ _ _ Hn Hc) as (Hs & Hmid & Hlast & Hp).
    split.
    { rewrite Hs, Nat2Z.inj_succ, <- Z.add_1_r, inject_Z_plus.
      change (inject_Z 1) with 1%Q. ring. }
    split; [intros H; apply Hmid; lia |].
    split; [intros H; apply Hlast; lia |].
    rewrite Hp. do 4 f_equal. lia.
Qed.

End Windows.

(** X2. The chunks [segment_audio] returns, for a positive chunk length, are
    ceiling([duration] / [chunk_seconds]) in number.  Chunk [i] (from 0)
    starts at [i * chunk_seconds] and is stored as [chunk_<i>.wav], [i]
    written with at least three digits; every chunk but the last lasts
    exactly [chunk_seconds], and the last one ends at the duration and
    lasts at most [chunk_seconds]. *)
Theorem chunk_i_in_closed_form :
  forall (E : env) (chunk_seconds : Q) (out_dir : string) (duration : Q)
         (w : world) (chunks : list chunk) (w' : world),
  (0 < chunk_seconds)%Q ->
  segment_audio E chunk_seconds out_dir duration w = (Ok chunks, w') ->
  length chunks = Z.to_nat (Qceiling (duration / chunk_seconds)) /\
  forall i c, chunks !! i = Some c ->
    (fst (fst c) == inject_Z (Z.of_nat i) * chunk_seconds)%Q /\
    snd c = path_join out_dir
              ("chunk_" +:+ Py.format_0d 3 (Z.of_nat i) +:+ ".wav") /\
    (S i < length chunks -> (snd (fst c) - fst (fst c) == chunk_seconds)%Q) /\
    (S i = length chunks ->
     snd (fst c) = duration /\ (0 < snd (fst c) - fst (fst c))%Q /\
     (snd (fst c) - fst (fst c) <= chunk_seconds)%Q).
Proof.
  intros E cs out_dir duration w chunks w' Hcs Hrun.
  rewrite (segment_audio_counted E cs out_dir duration Hcs w) in Hrun.
  apply cut_all_Ok_inv in Hrun. simpl in Hrun. subst chunks.
  assert (Hturns : turns_left cs duration 0 = Z.to_nat (Qceiling (duration / cs))).
  { unfold turns_left. f_equal. apply Qceiling_comp. field. lra. }
  rewrite length_chunks_from. split; [exact Hturns |].
  intros i c Hc.
  destruct (chunks_from_nth cs out_dir duration Hcs _ 0%Q 0 i c eq_refl Hc)
    as (Hs & Hmid & Hlast & Hp).
  split; [rewrite Hs; ring |]. split; [exact Hp |]. split.
  - intros H. destruct (Hmid H) as [-> _]. ring.
  - intros H. destruct (Hlast H) as (-> & H1 & H2). split; [reflexivity |]. lra.
Qed.

(** A source of 750.5 seconds: the third chunk is the last and lasts 150.5
    seconds. *)
Lemma chunk_i_in_closed_form_witness :
  exists chunks w',
    segment_audio (sample_env (1501 # 2) None) CHUNK_SECONDS "work" (1501 # 2)%Q
                  empty_world = (Ok chunks, w') /\
    length chunks = 3.
Proof.
  pose (r := segment_audio (sample_env (1501 # 2) None) CHUNK_SECONDS "work"
                           (1501 # 2)%Q empty_world).
  pose (chunks := match fst r with Ok l => l | _ => [] end).
  destruct (chunk_i_in_closed_form (sample_env (1501 # 2) None) CHUNK_SECONDS "work"
              (1501 # 2)%Q empty_world chunks (snd r))
    as [Hlen _]; [reflexivity | vm_compute; reflexivity |].
  exists chunks, (snd r). split; [vm_compute; reflexivity | exact Hlen].
Defined.

(** *** Chunk files never collide *)

Lemma zeros_parse (k : nat) (s : string) :
  option_map N.of_uint (NilEmpty.uint_of_string (Py.zeros k +:+ s)) =
  option_map N.of_uint (NilEmpty.uint_of_string s).
Proof.
  induction k as [|k IH]; [reflexivity |].
  change (Py.zeros (S k) +:+ s) with (String "0" (Py.zeros k +:+ s)).
  cbn [NilEmpty.uint_of_string]. rewrite <- IH.
  destruct (NilEmpty.uint_of_string (Py.zeros k +:+ s)); reflexivity.
Qed.

Lemma format_0d_parse (width : nat) (z : Z) :
  (0 <= z)%Z ->
  option_map N.of_uint (NilEmpty.uint_of_string (Py.format_0d width z))
  = Some (Z.to_N z).
Proof.
  intros Hz. rewrite format_0d_nonneg by exact Hz. unfold Py.zfill.
  rewrite zeros_parse. unfold Py.str_nonneg. rewrite NilEmpty.usu. simpl.
  now rewrite DecimalN.Unsigned.of_to.
Qed.

Lemma format_0d_inj (width : nat) (a b : Z) :
  (0 <= a)%Z -> (0 <= b)%Z -> Py.format_0d width a = Py.format_0d width b -> a = b.
Proof.
  intros Ha Hb H.
  pose proof (format_0d_parse width a Ha) as Pa.
  pose proof (format_0d_parse width b Hb) as Pb.
  rewrite H, Pb in Pa. injection Pa as Pa. lia.
Qed.

Lemma append_inj_r (t : string) :
  forall s1 s2, s1 +:+ t = s2 +:+ t -> s1 = s2.
Proof.
  assert (Hlen : forall s, String.length (s +:+ t) = String.length t -> s = "").
  { intros s H. rewrite length_append in H. destruct s; [reflexivity | simpl in H; lia]. }
  induction s1 as [|a s1 IH]; intros s2 H.
  - symmetry. apply Hlen. change ("" +:+ t) with t in H. now rewrite <- H.
  - destruct s2 as [|b s2].
    + apply Hlen. change ("" +:+ t) with t in H. now rewrite H.
    + change (String a (s1 +:+ t) = String b (s2 +:+ t)) in H.
      injection H as -> H. f_equal. now apply IH.
Qed.

Lemma chunk_path_inj (out_dir : string) (i j : nat) :
  path_join out_dir ("chunk_" +:+ Py.format_0d 3 (Z.of_nat i) +:+ ".wav") =
  path_join out_dir ("chunk_" +:+ Py.format_0d 3 (Z.of_nat j) +:+ ".wav") ->
  i = j.
Proof.
  unfold path_join. intros H.
  apply (inj (String.append out_dir)) in H.
  apply (inj (String.append "/")) in H.
  apply (inj (String.append "chunk_")) in H.
  apply append_inj_r in H. apply format_0d_inj in H; lia.
Qed.

(** X3. No two chunks that [segment_audio] returns share a file, and no
    chunk is stored over [full_audio.wav], from which the chunks are cut. *)
Theorem chunk_files_never_collide :
  forall (E : env) (chunk_seconds : Q) (out_dir : string) (duration : Q)
         (w : world) (chunks : list chunk) (w' : world),
  (0 < chunk_seconds)%Q ->
  segment_audio E chunk_seconds out_dir duration w = (Ok chunks, w') ->
  (forall i j ci cj, chunks !! i = Some ci -> chunks !! j = Some cj ->
                     snd ci = snd cj -> i = j) /\
  (forall c, c ∈ chunks -> snd c <> path_join out_dir "full_audio.wav").
Proof.
  intros E cs out_dir duration w chunks w' Hcs Hrun.
  rewrite (segment_audio_counted E cs out_dir duration Hcs w) in Hrun.
  apply cut_all_Ok_inv in Hrun. simpl in Hrun. subst chunks.
  split.
  - intros i j ci cj Hi Hj Heq.
    destruct (chunks_from_nth cs out_dir duration Hcs _ 0%Q 0 i ci eq_refl Hi)
      as (_ & _ & _ & Hpi).
    destruct (chunks_from_nth cs out_dir duration Hcs _ 0%Q 0 j cj eq_refl Hj)
      as (_ & _ & _ & Hpj).
    rewrite Hpi, Hpj in Heq. now apply chunk_path_inj in Heq.
  - intros c Hc. apply list_elem_of_lookup in Hc as [i Hi].
    destruct (chunks_from_nth cs out_dir duration Hcs _ 0%Q 0 i c eq_refl Hi)
      as (_ & _ & _ & Hp).
    rewrite Hp. unfold path_join. intros H.
    apply (inj (String.append out_dir)) in H.
    apply (inj (String.append "/")) in H. discriminate.
Qed.

(** Over 610 seconds the three chunks have three different files. *)
Lemma chunk_files_never_collide_witness :
  exists chunks w',
    segment_audio (sample_env 610 None) CHUNK_SECONDS "work" 610%Q empty_world
      = (Ok chunks, w') /\
    forall c, c ∈ chunks -> snd c <> path_join "work" "full_audio.wav".
Proof.
  pose (r := segment_audio (sample_env 610 None) CHUNK_SECONDS "work" 610%Q empty_world).
  pose (chunks := match fst r with Ok l => l | _ => [] end).
  destruct (chunk_files_never_collide (sample_env 610 None) CHUNK_SECONDS "work"
              610%Q empty_world chunks (snd r))
    as [_ Hfull]; [reflexivity | vm_compute; reflexivity |].
  exists chunks, (snd r). split; [vm_compute; reflexivity | exact Hfull].
Defined.

(** ** The transcriber adapter, case by case *)

(** X4. With the library, a key and a readable chunk file,
    [transcribe_chunk_openai] asks [openai.Audio.transcribe] first and
    returns its response; only when that raises does it ask
    [openai.Transcription.create], whose response it then returns, or whose
    exception it lets through: the exception of the first request is lost. *)
Theorem transcription_falls_back_once :
  forall E sdk chunk_path key w,
  openai E = Some sdk ->
  open_rb chunk_path w = (Ok tt, w) ->
  (forall res,
     Audio_transcribe sdk chunk_path = inr res ->
     transcribe_chunk_openai E chunk_path (Some key) w =
     (Ok (transcript res),
      logged (CallAudioTranscribe chunk_path) (with_api_key key w))) /\
  (forall e1 res,
     Audio_transcribe sdk chunk_path = inl e1 ->
     Transcription_create sdk chunk_path = inr res ->
     transcribe_chunk_openai E chunk_path (Some key) w =
     (Ok (transcript res),
      logged (CallTranscriptionCreate chunk_path)
        (logged (CallAudioTranscribe chunk_path) (with_api_key key w)))) /\
  (forall e1 e2,
     Audio_transcribe sdk chunk_path = inl e1 ->
     Transcription_create sdk chunk_path = inl e2 ->
     transcribe_chunk_openai E chunk_path (Some key) w =
     (Raise e2,
      logged (CallTranscriptionCreate chunk_path)
        (logged (CallAudioTranscribe chunk_path) (with_api_key key w)))).
Proof.
  intros E sdk chunk_path key w Hsdk Hopen.
  assert (Hopen' : open_rb chunk_path (with_api_key key w) = (Ok tt, with_api_key key w)).
  { unfold open_rb in *. simpl.
    destruct (files w !! chunk_path) as [[| |c] |]; try discriminate; reflexivity. }
  assert (Hstart : forall body : M (string * list segment),
            transcribe_chunk_openai E chunk_path (Some key) w =
            try_except
              (let* res := external (CallAudioTranscribe chunk_path)
                                    (Audio_transcribe sdk chunk_path) in
               ret (default "" (res_text res), default [] (res_segments res)))
              (fun _ =>
               let* res := external (CallTranscriptionCreate chunk_path)
                                    (Transcription_create sdk chunk_path) in
               ret (default "" (res_text res), default [] (res_segments res)))
              (with_api_key key w)).
  { intros _. unfold transcribe_chunk_openai. rewrite Hsdk.
    unfold bind at 1. unfold set_api_key at 1. fold (with_api_key key w).
    unfold bind at 1. rewrite Hopen'. reflexivity. }
  specialize (Hstart (ret ("", []))).
  split; [| split].
  - intros res H1. rewrite Hstart.
    unfold try_except, external, bind, log. rewrite H1. reflexivity.
  - intros e1 res H1 H2. rewrite Hstart.
    unfold try_except, external, bind, log. rewrite H1. simpl. rewrite H2. reflexivity.
  - intros e1 e2 H1 H2. rewrite Hstart.
    unfold try_except, external, bind, log. rewrite H1. simpl. rewrite H2. reflexivity.
Qed.

(** The first request times out and the second has no such entry point: the
    caller sees the second exception. *)
Lemma transcription_falls_back_once_witness :
  transcribe_chunk_openai (sample_env 610 (Some failing_sdk))
    "/d/movie_work/chunk_001.wav" (Some "key") second_chunk_world
  = (Raise (ExternalError "quota exceeded"),
     logged (CallTranscriptionCreate "/d/movie_work/chunk_001.wav")
       (logged (CallAudioTranscribe "/d/movie_work/chunk_001.wav")
          (with_api_key "key" second_chunk_world))).
Proof.
  destruct (transcription_falls_back_once
              (sample_env 610 (Some failing_sdk)) failing_sdk
              "/d/movie_work/chunk_001.wav" "key" second_chunk_world)
    as (_ & _ & Hboth); [reflexivity | vm_compute; reflexivity |].
  apply (Hboth (ExternalError "timeout") (ExternalError "quota exceeded"));
    reflexivity.
Defined.

(** X5. Whatever its outcome, [transcribe_chunk_openai] changes no file.
    It sends no request when the library or the key is missing or the chunk
    file cannot be opened, and otherwise one request, or two when the first
    raised, both for this chunk.  Once the two checks have passed the key
    stays in [openai.api_key], also when the call raises. *)
Theorem transcription_footprint :
  forall E chunk_path api_key w o w',
  transcribe_chunk_openai E chunk_path api_key w = (o, w') ->
  files w' = files w /\
  (calls w' = calls w \/
   calls w' = calls w ++ [CallAudioTranscribe chunk_path] \/
   calls w' = calls w ++ [CallAudioTranscribe chunk_path;
                          CallTranscriptionCreate chunk_path]) /\
  (openai E = None \/ api_key = None \/ open_rb chunk_path w <> (Ok tt, w) ->
   calls w' = calls w /\ exists e, o = Raise e) /\
  openai_api_key w' =
    match openai E, api_key with
    | Some _, Some key => Some key
    | _, _ => openai_api_key w
    end.
Proof.
  intros E chunk_path api_key w o w'. unfold transcribe_chunk_openai.
  destruct (openai E) as [sdk |];
    [| intros H; injection H as <- <-; repeat split; eauto].
  destruct api_key as [key |];
    [| intros H; injection H as <- <-; repeat split; eauto].
  unfold bind at 1. unfold set_api_key at 1. unfold bind at 1.
  unfold open_rb at 1. simpl.
  destruct (files w !! chunk_path) as [n |] eqn:Hf;
    [destruct n as [| | c] |];
    try (intros H; injection H as <- <-; repeat split; eauto).
  all: unfold try_except, external, bind, log, ret, raise; simpl;
    destruct (Audio_transcribe sdk chunk_path) as [e1 | res1]; simpl;
    try destruct (Transcription_create sdk chunk_path) as [e2 | res2]; simpl;
    intros H; injection H as <- <-; simpl;
    (split; [reflexivity |]);
    (split; [rewrite <- ?app_assoc; simpl; auto |]);
    (split; [| reflexivity]);
    intros [H | [H | H]]; try discriminate;
    exfalso; apply H; unfold open_rb; rewrite Hf; reflexivity.
Qed.

(** The second chunk of the failing service: two requests, the key kept. *)
Lemma transcription_footprint_witness :
  exists o w',
    transcribe_chunk_openai (sample_env 610 (Some failing_sdk))
      "/d/movie_work/chunk_001.wav" (Some "key") second_chunk_world = (o, w') /\
    openai_api_key w' = Some "key".
Proof.
  pose (r := transcribe_chunk_openai (sample_env 610 (Some failing_sdk))
               "/d/movie_work/chunk_001.wav" (Some "key")
               second_chunk_world).
  exists (fst r), (snd r). split; [apply surjective_pairing |].
  destruct (transcription_footprint (sample_env 610 (Some failing_sdk))
              "/d/movie_work/chunk_001.wav" (Some "key")
              second_chunk_world
              (fst r) (snd r) (surjective_pairing r))
    as (_ & _ & _ & Hkey).
  exact Hkey.
Defined.

(** ** [str.strip] *)

Lemma lstrip_head (s : string) :
  Py.lstrip s = "" \/ exists a r, Py.lstrip s = String a r /\ Py.isspace a = false.
Proof.
  induction s as [|a r IH]; [now left |]. simpl.
  destruct (Py.isspace a) eqn:Ha; [exact IH | right; eauto].
Qed.

Lemma rstrip_idempotent (s : string) : Py.rstrip (Py.rstrip s) = Py.rstrip s.
Proof.
  induction s as [|a r IH]; [reflexivity |]. simpl.
  destruct (Py.rstrip r) as [|b r'] eqn:Hr.
  - destruct (Py.isspace a) eqn:Ha; [reflexivity |]. simpl. now rewrite Ha.
  - simpl. simpl in IH. destruct (Py.rstrip r') as [|c r''] eqn:Hr'.
    + destruct (Py.isspace b); [discriminate | exact (f_equal (String a) IH)].
    + exact (f_equal (String a) IH).
Qed.

Lemma rstrip_keeps_head (a : ascii) (r : string) :
  Py.isspace a = false -> exists r', Py.rstrip (String a r) = String a r'.
Proof.
  intros Ha. simpl. destruct (Py.rstrip r); [rewrite Ha |]; eauto.
Qed.

Lemma strip_idempotent (s : string) : Py.strip (Py.strip s) = Py.strip s.
Proof.
  unfold Py.strip.
  destruct (lstrip_head s) as [-> | (a & r & -> & Ha)]; [reflexivity |].
  destruct (rstrip_keeps_head a r Ha) as [r' Hr]. rewrite Hr.
  cbn [Py.lstrip]. rewrite Ha, <- Hr. apply rstrip_idempotent.
Qed.

(** ** One translation per unit *)

Lemma rebase_segments_exact (start : Q) (translator : option (string -> exn + string))
    (segments : list segment) :
  forall all_segments w,
  rebase_segments start translator segments all_segments w =
  (Ok (all_segments ++ map (rebased start translator) segments),
   mkWorld (files w) (openai_api_key w)
     (calls w ++ translate_calls translator
                   (map (fun s => Py.strip (default "" (seg_text s))) segments))).
Proof.
  induction segments as [|s rest IH]; intros all_segments w.
  - simpl. unfold ret, translate_calls. rewrite !app_nil_r.
    destruct translator; simpl; rewrite ?app_nil_r; now destruct w.
  - cbn [rebase_segments]. unfold bind. rewrite translate_text_run, IH.
    f_equal; [now rewrite <- app_assoc |].
    destruct translator; simpl; [| reflexivity].
    now rewrite <- app_assoc.
Qed.

Lemma append_transcription_exact (c : chunk) (translator : option (string -> exn + string))
    (text : string) (segments : list segment) (all_segments : list entry) (w : world) :
  append_transcription c translator text segments all_segments w =
  (Ok (all_segments ++ contribution c translator text segments),
   mkWorld (files w) (openai_api_key w)
     (calls w ++ translate_calls translator (texts_to_translate text segments))).
Proof.
  destruct c as [[start end_] path]. unfold append_transcription.
  destruct segments as [|s rest].
  - unfold bind. rewrite translate_text_run. simpl.
    destruct translator; simpl; [reflexivity |]. rewrite app_nil_r. now destruct w.
  - apply rebase_segments_exact.
Qed.

Lemma contribution_entries (c : chunk) (translator : option (string -> exn + string))
    (text : string) (segments : list segment) (x : entry) :
  x ∈ contribution c translator text segments ->
  Py.strip (e_text x) = e_text x /\ e_zh x = translation (e_text x) translator.
Proof.
  intros Hx. unfold contribution in Hx. destruct segments as [|s rest].
  - apply list_elem_of_singleton in Hx as ->. simpl.
    split; [apply strip_idempotent | reflexivity].
  - apply list_elem_of_fmap in Hx as (s' & -> & _). simpl.
    split; [apply strip_idempotent | reflexivity].
Qed.

(** X6. What lines 140-150 add for one transcription is one entry per unit
    of the response, or a single entry when it has none.  Each entry holds
    the stripped source text and, as translation, what [translate_text]
    gives for that text.  With a translator there is exactly one call to it
    per entry, in order, on the entry's source text; without one there is
    none.  No file and no key is touched. *)
Theorem one_translation_per_entry :
  forall (c : chunk) (translator : option (string -> exn + string)) (text : string)
         (segments : list segment) (all_segments : list entry) (w : world),
  exists new w',
    append_transcription c translator text segments all_segments w
      = (Ok (all_segments ++ new), w') /\
    length new = Nat.max 1 (length segments) /\
    (forall x, x ∈ new ->
       Py.strip (e_text x) = e_text x /\
       e_zh x = translation (e_text x) translator) /\
    calls w' = calls w ++ translate_calls translator (map e_text new) /\
    files w' = files w /\ openai_api_key w' = openai_api_key w.
Proof.
  intros c translator text segments all_segments w.
  eexists _, _. split; [apply append_transcription_exact |]. simpl.
  split; [| split; [| split; [| split; reflexivity]]].
  - unfold contribution. destruct segments; [reflexivity |].
    rewrite length_map. simpl. lia.
  - intros x Hx. exact (contribution_entries _ _ _ _ _ Hx).
  - do 2 f_equal. unfold contribution, texts_to_translate.
    destruct segments as [|s rest]; [reflexivity |].
    rewrite map_map. reflexivity.
Qed.

(** ** The timeline, entry by entry *)

Lemma process_chunks_Ok_exact E api_key use_openai translator cb total chunks :
  forall idx all_segments w acc w',
  process_chunks E api_key use_openai translator cb total idx chunks all_segments w
    = (Ok acc, w') ->
  exists ts,
    Forall2 (fun c t => exists wa wb,
               transcribe_chunk_openai E (snd c) api_key wa = (Ok t, wb)) chunks ts /\
    acc = all_segments ++ contributions translator chunks ts.
Proof.
  induction chunks as [|c rest IH]; intros idx all_segments w acc w' H; simpl in H.
  - injection H as <- <-. exists []. split; [constructor | now rewrite app_nil_r].
  - apply bind_Ok_inv in H as (acc1 & w1 & Hc & H).
    apply process_chunk_Ok_inv in Hc as (text & segments & wb & Htr & ->).
    apply IH in H as (ts & Hts & ->).
    exists ((text, segments) :: ts). split; [constructor; eauto |].
    simpl. now rewrite app_assoc.
Qed.

Lemma contributions_elem translator chunks :
  forall ts x, x ∈ contributions translator chunks ts ->
  exists c t, (c, t) ∈ zip chunks ts /\ x ∈ contribution c translator (fst t) (snd t).
Proof.
  induction chunks as [|c rest IH]; intros [|t ts] x Hx; simpl in Hx;
    try (inversion Hx; fail).
  apply elem_of_app in Hx as [Hx | Hx].
  - exists c, t. split; [left | exact Hx].
  - destruct (IH ts x Hx) as (c' & t' & Hin & Hx'). exists c', t'.
    split; [right; exact Hin | exact Hx'].
Qed.

Lemma contributions_length translator chunks :
  forall ts, length chunks = length ts ->
  length (contributions translator chunks ts) =
  sum_list (map (fun t : string * list segment => Nat.max 1 (length (snd t))) ts).
Proof.
  induction chunks as [|c rest IH]; intros [|t ts] Hlen; simpl in *; try lia.
  rewrite length_app, IH by lia. f_equal.
  unfold contribution. destruct (snd t); [reflexivity |].
  rewrite length_map. simpl. lia.
Qed.

(** X7. In a run of [process_file] that returns, the subtitle file holds the
    encoding of the sorted contributions of the chunks, each chunk having
    been transcribed, and nothing else: there is one cue per unit of each
    response (one for a response without units), and every cue holds a
    stripped source text and, as second line, what [translate_text] gives
    for it, which is the source text itself when there is no translator. *)
Theorem every_cue_comes_from_a_transcription :
  forall E v api_key use_openai output_dir cb w p w',
  process_file E v api_key use_openai output_dir cb w = (Ok p, w') ->
  exists w0 chunks w1 ts timeline,
    mkdir (work_dir_of v output_dir) w = (Ok tt, w0) /\
    split_audio E (video_str v) (work_dir_of v output_dir) w0 = (Ok chunks, w1) /\
    Forall2 (fun c t => exists wa wb,
               transcribe_chunk_openai E (snd c) api_key wa = (Ok t, wb)) chunks ts /\
    timeline = sort_by_start (contributions (Translator E) chunks ts) /\
    files w' !! p = Some (Txt (encode timeline)) /\
    length timeline =
      sum_list (map (fun t : string * list segment => Nat.max 1 (length (snd t))) ts) /\
    forall x, x ∈ timeline ->
      (exists c t, (c, t) ∈ zip chunks ts /\
                   x ∈ contribution c (Translator E) (fst t) (snd t)) /\
      Py.strip (e_text x) = e_text x /\
      e_zh x = translation (e_text x) (Translator E) /\
      (Translator E = None -> e_zh x = e_text x).
Proof.
  intros E v api_key use_openai output_dir cb w p w' Hrun.
  apply process_file_Ok_inv in Hrun
    as (w0 & chunks & w1 & all_segments & w2 & H0 & H1 & H2 & _ & -> & Hf).
  apply process_chunks_Ok_exact in H2 as (ts & Hts & Hall). simpl in Hall. subst.
  exists w0, chunks, w1, ts, (sort_by_start (contributions (Translator E) chunks ts)).
  split; [exact H0 |]. split; [exact H1 |]. split; [exact Hts |].
  split; [reflexivity |]. split; [rewrite Hf; apply lookup_insert_eq |].
  split.
  - rewrite (Permutation_length (sort_by_start_perm _)).
    apply contributions_length. exact (Forall2_length _ _ _ Hts).
  - intros x Hx.
    assert (Hin : x ∈ contributions (Translator E) chunks ts).
    { apply list_elem_of_In. apply (Permutation_in _ (sort_by_start_perm _)).
      now apply list_elem_of_In. }
    destruct (contributions_elem _ _ _ _ Hin) as (c & t & Hzip & Hc).
    split; [eauto |].
    destruct (contribution_entries _ _ _ _ _ Hc) as [Hs Hz].
    split; [exact Hs |]. split; [exact Hz |].
    intros Hnone. rewrite Hz, Hnone. reflexivity.
Qed.

(** The sample run over 610 seconds: six units and one empty response give
    cues whose number is that of the entries. *)
Lemma every_cue_comes_from_a_transcription_witness :
  exists timeline,
    files (snd (process_file (sample_env 610 (Some sample_sdk)) sample_video
                             (Some "key") true None true empty_world))
      !! "/d/movie.srt" = Some (Txt (encode timeline)) /\
    forall x, x ∈ timeline -> e_zh x = e_text x.
Proof.
  destruct (every_cue_comes_from_a_transcription
              (sample_env 610 (Some sample_sdk)) sample_video (Some "key") true
              None true empty_world "/d/movie.srt"
              (snd (process_file (sample_env 610 (Some sample_sdk)) sample_video
                                 (Some "key") true None true empty_world)))
    as (w0 & chunks & w1 & ts & timeline & _ & _ & _ & _ & Hfile & _ & Hx);
    [vm_compute; reflexivity |].
  exists timeline. split; [exact Hfile |].
  intros x Hin. destruct (Hx x Hin) as (_ & _ & _ & Hnone). now apply Hnone.
Defined.

(** ** The sort, on lists already in order *)

Lemma ascending_sorted (l : list entry) : ascending l -> StronglySorted start_le l.
Proof.
  induction l as [|x r IH]; intros H; constructor.
  - apply IH. intros i j a b Hij Ha Hb. exact (H (S i) (S j) a b ltac:(lia) Ha Hb).
  - apply Forall_forall. intros y Hy. apply list_elem_of_lookup in Hy as [j Hj].
    exact (H 0 (S j) x y ltac:(lia) eq_refl Hj).
Qed.

Lemma insert_by_start_first (x : entry) (l : list entry) :
  Forall (start_le x) l -> insert_by_start x l = x :: l.
Proof.
  intros H. destruct H as [|y r Hy Hr]; [reflexivity |]. simpl.
  apply Qle_bool_iff in Hy. now rewrite Hy.
Qed.

Lemma sort_by_start_fixes_sorted (l : list entry) :
  StronglySorted start_le l -> sort_by_start l = l.
Proof.
  induction 1 as [|x r Hr IH Hx]; [reflexivity |]. simpl.
  rewrite IH. now apply insert_by_start_first.
Qed.

(** Two ascending lists with the same entries of each key, in the same
    order, are the same list. *)
Lemma sorted_by_classes (l1 : list entry) :
  forall l2,
  StronglySorted start_le l1 -> StronglySorted start_le l2 ->
  (forall k, with_start k l1 = with_start k l2) -> l1 = l2.
Proof.
  assert (Hself : forall (y : entry) r, with_start (e_start y) (y :: r) <> []).
  { intros y r. unfold with_start. simpl.
    rewrite (proj2 (Qeq_bool_iff _ _) (Qeq_refl _)). discriminate. }
  induction l1 as [|x r1 IH]; intros [|y r2] S1 S2 Hk.
  - reflexivity.
  - exfalso. apply (Hself y r2). now rewrite <- Hk.
  - exfalso. apply (Hself x r1). now rewrite Hk.
  - inversion S1 as [|? ? S1' F1]; subst. inversion S2 as [|? ? S2' F2]; subst.
    assert (Hxy : x = y).
    { pose proof (Hk (e_start x)) as Hx. unfold with_start in Hx. simpl in Hx.
      rewrite (proj2 (Qeq_bool_iff _ _) (Qeq_refl _)) in Hx.
      destruct (Qeq_bool (e_start y) (e_start x)) eqn:Eyx; [now injection Hx |].
      exfalso.
      assert (Hin2 : In x r2).
      { apply (proj1 (filter_In (fun x0 => Qeq_bool (e_start x0) (e_start x)) x r2)).
        rewrite <- Hx. now left. }
      pose proof (Hk (e_start y)) as Hy. unfold with_start in Hy. simpl in Hy.
      rewrite (proj2 (Qeq_bool_iff _ _) (Qeq_refl _)) in Hy.
      assert (Exy : Qeq_bool (e_start x) (e_start y) = false).
      { apply not_true_iff_false. intros H. apply Qeq_bool_iff in H.
        symmetry in H. apply Qeq_bool_iff in H. congruence. }
      rewrite Exy in Hy.
      assert (Hin1 : In y r1).
      { apply (proj1 (filter_In (fun x0 => Qeq_bool (e_start x0) (e_start y)) y r1)).
        rewrite Hy. now left. }
      rewrite List.Forall_forall in F1, F2.
      pose proof (F1 y Hin1) as A. pose proof (F2 x Hin2) as B.
      unfold start_le in A, B.
      assert (C : (e_start y == e_start x)%Q) by lra.
      apply Qeq_bool_iff in C. congruence. }
    subst y. f_equal. apply IH; [assumption | assumption |].
    intros k. pose proof (Hk k) as H. unfold with_start in *. simpl in H.
    destruct (Qeq_bool (e_start x) k); [now injection H | exact H].
Qed.

(** X8. A list whose [start] keys are already in ascending order comes out
    of [sort_by_start] unchanged; in particular sorting twice is sorting
    once. *)
Theorem sort_leaves_ascending_lists_alone :
  (forall l, ascending l -> sort_by_start l = l) /\
  (forall l, sort_by_start (sort_by_start l) = sort_by_start l).
Proof.
  split.
  - intros l H. apply sort_by_start_fixes_sorted, ascending_sorted, H.
  - intros l. apply sort_by_start_fixes_sorted, sort_by_start_sorted.
Qed.

(** Two entries in order stay as they are. *)
Lemma sort_leaves_ascending_lists_alone_witness :
  sort_by_start [mkEntry 0 1 "a" "a"; mkEntry 0 2 "b" "b"; mkEntry 3 4 "c" "c"]
  = [mkEntry 0 1 "a" "a"; mkEntry 0 2 "b" "b"; mkEntry 3 4 "c" "c"].
Proof.
  apply (proj1 sort_leaves_ascending_lists_alone).
  intros [|[|[|i]]] [|[|[|j]]] x y Hij Hx Hy; simpl in Hx, Hy;
    try lia; try discriminate;
    injection Hx as <-; injection Hy as <-; unfold Qle; simpl; lia.
Defined.

(** X9. The result of [sort_by_start] is the only arrangement that is
    ascending in [start] and has, for every key, the entries of that key in
    their order of arrival: whatever computes a stable ascending sort by
    [start], as [list.sort] does, computes this list. *)
Theorem stable_ascending_order_is_unique :
  forall l l' : list entry,
  ascending l' ->
  (forall k, with_start k l' = with_start k l) ->
  l' = sort_by_start l.
Proof.
  intros l l' Hasc Hk.
  apply sorted_by_classes;
    [now apply ascending_sorted | apply sort_by_start_sorted |].
  intros k. rewrite Hk. symmetry. apply with_start_sort.
Qed.

(** The stable ascending arrangement of three entries, two of them with the
    same key. *)
Lemma stable_ascending_order_is_unique_witness :
  [mkEntry 0 2 "b" "b"; mkEntry 3 4 "a" "a"; mkEntry 3 5 "c" "c"]
  = sort_by_start [mkEntry 3 4 "a" "a"; mkEntry 0 2 "b" "b"; mkEntry 3 5 "c" "c"].
Proof.
  apply stable_ascending_order_is_unique.
  - intros [|[|[|i]]] [|[|[|j]]] x y Hij Hx Hy; simpl in Hx, Hy;
      try lia; try discriminate;
      injection Hx as <-; injection Hy as <-; unfold Qle; simpl; lia.
  - intros k. unfold with_start. simpl.
    destruct (Qeq_bool 0 k) eqn:A, (Qeq_bool 3 k) eqn:B; try reflexivity.
    exfalso. apply Qeq_bool_iff in A, B. lra.
Defined.

(** ** The encoder *)



(** ** Timestamps outside and inside their domain *)

Lemma is_timestamp_head (s : string) :
  is_timestamp s -> exists a r, s = String a r /\ is_digit a = true.
Proof.
  intros (hh & mm & ss & mmm & -> & (Hlen & Hdig) & _).
  destruct hh as [|a hh]; [simpl in Hlen; lia |].
  simpl in Hdig. apply andb_true_iff in Hdig as [Ha _].
  exists a. eexists. split; [reflexivity | exact Ha].
Qed.

(** X11. A negative number of seconds does not give a timestamp: the hour
    field is negative, so the text begins with a minus sign.  (A unit whose
    rebased time is negative gives such a cue.) *)
Theorem negative_seconds_give_no_timestamp :
  forall sec : Q, (sec < 0)%Q ->
  (exists rest, seconds_to_srt_timestamp sec = String "-" rest) /\
  ~ is_timestamp (seconds_to_srt_timestamp sec).
Proof.
  intros sec Hneg.
  assert (Hhead : exists rest, seconds_to_srt_timestamp sec = String "-" rest).
  { unfold seconds_to_srt_timestamp, Py.floordiv. rewrite int_inject_Z.
    assert (Hh : (Qfloor (sec / 3600) < 0)%Z).
    { pose proof (Qfloor_le (sec / 3600)) as H.
      assert (Hq : (sec / 3600 < 0)%Q).
      { apply Qlt_shift_div_r; [reflexivity | lra]. }
      assert (A : (inject_Z (Qfloor (sec / 3600)) < inject_Z 0)%Q)
        by (change (inject_Z 0) with 0%Q; lra).
      now rewrite <- Zlt_Qlt in A. }
    unfold Py.format_0d at 1. apply Z.ltb_lt in Hh. rewrite Hh.
    eexists. reflexivity. }
  split; [exact Hhead |].
  intros Hts. destruct Hhead as [rest Hrest].
  apply is_timestamp_head in Hts as (a & r & Heq & Hdig).
  rewrite Hrest in Heq. injection Heq as <- _. discriminate.
Qed.

(** Half a second before zero. *)
Lemma negative_seconds_give_no_timestamp_witness :
  seconds_to_srt_timestamp (- (1 # 2)) = "-1:59:59,-500" /\
  ~ is_timestamp (seconds_to_srt_timestamp (- (1 # 2))).
Proof.
  split; [vm_compute; reflexivity |].
  apply (negative_seconds_give_no_timestamp (- (1 # 2))%Q). reflexivity.
Defined.






(** ** Termination *)

Lemma halts_ret {A} (a : A) : halts (ret a).
Proof. intros w. discriminate. Qed.

Lemma halts_raise {A} (e : exn) : halts (@raise A e).
Proof. intros w. discriminate. Qed.

Lemma halts_bind {A B} (m : M A) (k : A -> M B) :
  halts m -> (forall a, halts (k a)) -> halts (bind m k).
Proof.
  intros Hm Hk w. specialize (Hm w). unfold bind.
  destruct (m w) as [[a | e |] w1]; simpl in *;
    [apply Hk | discriminate | congruence].
Qed.

Lemma halts_try_except {A} (body : M A) (handler : exn -> M A) :
  halts body -> (forall e, halts (handler e)) -> halts (try_except body handler).
Proof.
  intros Hb Hh w. specialize (Hb w). unfold try_except.
  destruct (body w) as [[a | e |] w1]; simpl in *;
    [discriminate | apply Hh | congruence].
Qed.

Lemma halts_log (c : call) : halts (log c).
Proof. intros w. discriminate. Qed.

Lemma halts_mkdir (p : string) : halts (mkdir p).
Proof. intros w. unfold mkdir. destruct (files w !! p); discriminate. Qed.

Lemma halts_write_file (p : string) (n : node) : halts (write_file p n).
Proof. intros w. discriminate. Qed.

Lemma halts_append_file (p s : string) : halts (append_file p s).
Proof.
  intros w. unfold append_file. destruct (files w !! p) as [[| |c] |]; discriminate.
Qed.

Lemma halts_open_rb (p : string) : halts (open_rb p).
Proof.
  intros w. unfold open_rb. destruct (files w !! p) as [[| |c] |]; discriminate.
Qed.

Lemma halts_set_api_key (k : string) : halts (set_api_key k).
Proof. intros w. discriminate. Qed.

Lemma halts_external {A} (c : call) (r : exn + A) : halts (external c r).
Proof.
  apply halts_bind; [apply halts_log | intros _].
  destruct r; [apply halts_raise | apply halts_ret].
Qed.

Lemma halts_check_call (c : call) (tool : string) (ok : bool) :
  halts (check_call c tool ok).
Proof.
  apply halts_bind; [apply halts_log | intros _].
  destruct ok; [apply halts_ret | apply halts_raise].
Qed.

Lemma halts_progress (cb : bool) (msg : string) : halts (progress cb msg).
Proof. destruct cb; [apply halts_log | apply halts_ret]. Qed.

Lemma halts_translate_text text translator : halts (translate_text text translator).
Proof.
  destruct translator; [| apply halts_ret].
  apply halts_try_except; [apply halts_external | intros _; apply halts_ret].
Qed.

Lemma halts_transcribe_chunk_openai E chunk_path api_key :
  halts (transcribe_chunk_openai E chunk_path api_key).
Proof.
  unfold transcribe_chunk_openai.
  destruct (openai E); [| apply halts_raise].
  destruct api_key; [| apply halts_raise].
  apply halts_bind; [apply halts_set_api_key | intros _].
  apply halts_bind; [apply halts_open_rb | intros _].
  apply halts_try_except; [| intros _];
    (apply halts_bind; [apply halts_external | intros res; apply halts_ret]).
Qed.

Lemma halts_rebase_segments start translator segments :
  forall all_segments, halts (rebase_segments start translator segments all_segments).
Proof.
  induction segments as [|s rest IH]; intros all_segments; simpl.
  - apply halts_ret.
  - apply halts_bind; [apply halts_translate_text | intros chi; apply IH].
Qed.

Lemma halts_process_chunk E api_key use_openai translator cb total idx c all_segments :
  halts (process_chunk E api_key use_openai translator cb total idx c all_segments).
Proof.
  destruct c as [[start end_] path]. unfold process_chunk.
  apply halts_bind; [apply halts_progress | intros _].
  apply halts_bind.
  - destruct use_openai; [| apply halts_raise].
    apply halts_bind; [apply halts_transcribe_chunk_openai | intros [text segments]].
    unfold append_transcription. destruct segments.
    + apply halts_bind; [apply halts_translate_text | intros chi; apply halts_ret].
    + apply halts_rebase_segments.
  - intros acc. apply halts_bind; [apply halts_progress | intros _; apply halts_ret].
Qed.

Lemma halts_process_chunks E api_key use_openai translator cb total chunks :
  forall idx all_segments,
  halts (process_chunks E api_key use_openai translator cb total idx chunks all_segments).
Proof.
  induction chunks as [|c rest IH]; intros idx all_segments; simpl.
  - apply halts_ret.
  - apply halts_bind; [apply halts_process_chunk | intros acc; apply IH].
Qed.

Lemma CHUNK_SECONDS_pos : (0 < CHUNK_SECONDS)%Q.
Proof. reflexivity. Qed.

Lemma halts_split_audio E video_path out_dir : halts (split_audio E video_path out_dir).
Proof.
  unfold split_audio, split_audio_with. apply halts_bind.
  - unfold extract_full_audio.
    apply halts_bind; [apply halts_mkdir | intros _].
    destruct (mpy E).
    + apply halts_bind; [apply halts_external | intros d].
      apply halts_bind; [apply halts_write_file | intros _; apply halts_ret].
    + apply halts_bind; [apply halts_check_call | intros _].
      apply halts_bind; [apply halts_write_file | intros _; apply halts_external].
  - intros duration w. unfold segment_audio.
    apply split_loop_finishes.
    apply fuel_for_enough. exact CHUNK_SECONDS_pos.
Qed.

Lemma halts_segments_to_srt timeline srt_path : halts (segments_to_srt timeline srt_path).
Proof.
  intros w. rewrite segments_to_srt_run. discriminate.
Qed.

Lemma halts_process_file E v api_key use_openai output_dir cb :
  halts (process_file E v api_key use_openai output_dir cb).
Proof.
  unfold process_file.
  apply halts_bind; [apply halts_mkdir | intros _].
  apply halts_bind; [apply halts_split_audio | intros chunks].
  apply halts_bind; [apply halts_process_chunks | intros all_segments].
  apply halts_bind; [apply halts_segments_to_srt | intros _; apply halts_ret].
Qed.

(** ** The footprint of a run *)








(** ** Local mode *)

Lemma process_chunk_local E api_key translator cb total idx c all_segments w :
  process_chunk E api_key false translator cb total idx c all_segments w =
  (Raise (RuntimeError "Local transcription mode not implemented in this package."),
   announced cb total idx w).
Proof.
  destruct c as [[start end_] path]. unfold process_chunk.
  rewrite (bind_Ok _ _ _ _ _ (progress_run _ _ _)). reflexivity.
Qed.

(** X14. Without [use_openai] nothing can be transcribed.  Once the sound
    track has been cut into at least one chunk, the run raises the
    [RuntimeError] of the unimplemented local mode at the first chunk, with
    or without library and key: no request has been sent, the only call
    after the cuts is the first progress message, and the path of the
    subtitle file holds what it held before the run.  Only a source without
    any chunk gives a subtitle file, an empty one. *)
Theorem local_mode_raises_at_the_first_chunk :
  forall E v api_key output_dir cb w w0 chunks w1,
  mkdir (work_dir_of v output_dir) w = (Ok tt, w0) ->
  split_audio E (video_str v) (work_dir_of v output_dir) w0 = (Ok chunks, w1) ->
  (chunks <> [] ->
   process_file E v api_key false output_dir cb w
     = (Raise (RuntimeError "Local transcription mode not implemented in this package."),
        announced cb (length chunks) 0 w1) /\
   calls (announced cb (length chunks) 0 w1) =
     calls w1 ++ (if cb then [CallProgress ("Transcribing chunk 1/" +:+
                                            str_nat (length chunks) +:+ "...")]
                  else []) /\
   files (announced cb (length chunks) 0 w1) !! srt_path_of v output_dir
     = files w !! srt_path_of v output_dir) /\
  (chunks = [] ->
   process_file E v api_key false output_dir cb w
     = (Ok (srt_path_of v output_dir),
        mkWorld (<[srt_path_of v output_dir := Txt ""]> (files w1))
                (openai_api_key w1) (calls w1))).
Proof.
  intros E v api_key output_dir cb w w0 chunks w1 H0 H1.
  rewrite (process_file_after_split _ _ _ _ _ _ _ _ _ _ H0 H1).
  split.
  - intros Hne. destruct chunks as [|c rest]; [congruence |].
    cbn [process_chunks]. rewrite (bind_Raise _ _ _ _ _ (process_chunk_local _ _ _ _ _ _ _ _ _)).
    split; [reflexivity |]. split.
    + unfold announced. destruct cb; [| simpl; now rewrite app_nil_r]. reflexivity.
    + assert (Hfiles : files (announced cb (length (c :: rest)) 0 w1) = files w1)
        by (unfold announced; now destruct cb).
      rewrite Hfiles.
      pose proof (srt_path_outside_work_dir v output_dir) as Hsrt.
      set (wd := work_dir_of v output_dir) in *.
      assert (Hwd : in_work_dir wd wd) by now left.
      assert (Hsub : forall name, in_work_dir wd (path_join wd name))
        by (intros name; right; eauto).
      rewrite (keeps_split_audio (same_outside wd) (in_work_dir wd)
                 (same_outside_refl wd) (same_outside_trans wd) (same_outside_write wd)
                 E (video_str v) wd Hwd Hsub w0 _ w1 H1 _ Hsrt).
      exact (keeps_mkdir (same_outside wd) (in_work_dir wd)
               (same_outside_refl wd) (same_outside_write wd) wd Hwd w _ w0 H0 _ Hsrt).
  - intros ->. reflexivity.
Qed.

(** Over 610 seconds, with library and key, but without [use_openai]. *)
Lemma local_mode_raises_at_the_first_chunk_witness :
  exists w',
    process_file (sample_env 610 (Some sample_sdk)) sample_video (Some "key") false
                 None true empty_world
      = (Raise (RuntimeError "Local transcription mode not implemented in this package."),
         w') /\
    files w' !! srt_path_of sample_video None = None.
Proof.
  pose (E := sample_env 610 (Some sample_sdk)).
  pose (w0 := snd (mkdir "/d/movie_work" empty_world)).
  pose (r1 := split_audio E "/d/movie.mp4" "/d/movie_work" w0).
  pose (chunks := match fst r1 with Ok l => l | _ => [] end).
  destruct (local_mode_raises_at_the_first_chunk
              E sample_video (Some "key") None true empty_world w0 chunks (snd r1))
    as [Hfail _]; [vm_compute; reflexivity .. |].
  destruct Hfail as (Hrun & _ & Hfiles); [vm_compute; discriminate |].
  exists (announced true (length chunks) 0 (snd r1)).
  split; [exact Hrun |]. rewrite Hfiles. reflexivity.
Defined.

(** ** What a returning run has done *)

Lemma transcribe_chunk_openai_Ok_inv E chunk_path api_key w t w' :
  transcribe_chunk_openai E chunk_path api_key w = (Ok t, w') ->
  is_Some (openai E) /\
  (exists key, api_key = Some key /\ openai_api_key w' = Some key) /\
  exists l, calls w' = calls w ++ CallAudioTranscribe chunk_path :: l.
Proof.
  unfold transcribe_chunk_openai.
  destruct (openai E) as [sdk |]; [| discriminate].
  destruct api_key as [key |]; [| discriminate].
  unfold bind at 1. unfold set_api_key at 1. unfold bind at 1.
  unfold open_rb at 1. simpl.
  destruct (files w !! chunk_path) as [[| | c] |]; try discriminate.
  all: unfold try_except, external, bind, log, ret, raise; simpl;
    destruct (Audio_transcribe sdk chunk_path) as [e1 | res1]; simpl;
    try destruct (Transcription_create sdk chunk_path) as [e2 | res2]; simpl;
    intros H; try discriminate; injection H as <- <-; simpl;
    (split; [eauto |]); (split; [eauto |]);
    rewrite <- ?app_assoc; eexists; reflexivity.
Qed.

Lemma process_chunk_Ok_world E api_key use_openai translator cb total idx c
    all_segments w acc w' :
  process_chunk E api_key use_openai translator cb total idx c all_segments w
    = (Ok acc, w') ->
  use_openai = true /\ is_Some (openai E) /\
  (exists key, api_key = Some key /\ openai_api_key w' = Some key) /\
  exists l, calls w' = calls w ++ l /\ CallAudioTranscribe (snd c) ∈ l.
Proof.
  destruct c as [[start end_] path]. unfold process_chunk. intros H.
  rewrite (bind_Ok _ _ _ _ _ (progress_run _ _ _)) in H.
  apply bind_Ok_inv in H as (acc1 & w1 & Hbody & H).
  rewrite (bind_Ok _ _ _ _ _ (progress_run _ _ _)) in H. injection H as _ <-.
  destruct use_openai; [| discriminate]. split; [reflexivity |].
  apply bind_Ok_inv in Hbody as ([text segments] & wb & Htr & Happ).
  rewrite append_transcription_exact in Happ. injection Happ as _ <-.
  apply transcribe_chunk_openai_Ok_inv in Htr as (Hsdk & (key & -> & Hkey) & l & Hl).
  split; [exact Hsdk |]. split.
  - exists key. split; [reflexivity |]. destruct cb; exact Hkey.
  - assert (Hpre : exists l0, calls (snd (progress cb
                       ("Transcribing chunk " +:+ str_nat (idx + 1) +:+ "/" +:+
                        str_nat total +:+ "...") w)) = calls w ++ l0).
    { destruct cb; simpl; [eauto |]. exists []. now rewrite app_nil_r. }
    destruct Hpre as [l0 Hl0]. rewrite Hl0 in Hl.
    set (tc := translate_calls translator (texts_to_translate text segments)).
    assert (Hpost : exists l1, calls (snd (progress cb
                       ("Finished chunk " +:+ str_nat (idx + 1) +:+ "/" +:+
                        str_nat total)
                       (mkWorld (files wb) (openai_api_key wb) (calls wb ++ tc))))
                     = calls wb ++ tc ++ l1).
    { destruct cb; simpl.
      - exists [CallProgress ("Finished chunk " +:+ str_nat (idx + 1) +:+ "/" +:+
                             str_nat total)]. now rewrite <- app_assoc.
      - exists []. now rewrite app_nil_r. }
    destruct Hpost as [l1 Hl1].
    exists (l0 ++ CallAudioTranscribe path :: l ++ tc ++ l1).
    rewrite Hl1, Hl. split.
    + rewrite <- !app_assoc. reflexivity.
    + simpl. apply elem_of_app. right. left.
Qed.

Lemma process_chunks_Ok_world E api_key use_openai translator cb total chunks :
  forall idx all_segments w acc w',
  process_chunks E api_key use_openai translator cb total idx chunks all_segments w
    = (Ok acc, w') ->
  (chunks <> [] -> use_openai = true /\ is_Some (openai E) /\ is_Some api_key) /\
  (forall key, api_key = Some key ->
     chunks <> [] \/ openai_api_key w = Some key -> openai_api_key w' = Some key) /\
  exists l, calls w' = calls w ++ l /\
            forall c, c ∈ chunks -> CallAudioTranscribe (snd c) ∈ l.
Proof.
  induction chunks as [|c rest IH]; intros idx all_segments w acc w' H; simpl in H.
  - injection H as _ <-. split; [congruence |]. split.
    + intros key _ [Hne | Hkey]; [congruence | exact Hkey].
    + exists []. split; [now rewrite app_nil_r | intros c Hc; inversion Hc].
  - apply bind_Ok_inv in H as (acc1 & w1 & Hc & H).
    apply process_chunk_Ok_world in Hc
      as (Huse & Hsdk & (key1 & Hk1 & Hkey1) & l1 & Hl1 & Hin1).
    apply IH in H as (_ & Hkeep & l2 & Hl2 & Hin2). split; [| split].
    + intros _. rewrite Hk1. eauto.
    + intros key Hk _. apply (Hkeep key Hk). right. congruence.
    + exists (l1 ++ l2). split; [now rewrite Hl2, Hl1, app_assoc |].
      intros c' Hc'. apply elem_of_app.
      apply elem_of_cons in Hc' as [-> | Hc']; [now left | right; now apply Hin2].
Qed.

(** X15. A run of [process_file] that returns after the sound track was cut
    into at least one chunk was asked to use the service, with its library
    present and a key given, and that key is still stored in
    [openai.api_key] when the run has returned.  Every chunk has been sent
    to the first entry point of the service. *)
Theorem a_returning_run_has_used_the_service :
  forall E v api_key use_openai output_dir cb w p w',
  process_file E v api_key use_openai output_dir cb w = (Ok p, w') ->
  exists w0 chunks w1,
    mkdir (work_dir_of v output_dir) w = (Ok tt, w0) /\
    split_audio E (video_str v) (work_dir_of v output_dir) w0 = (Ok chunks, w1) /\
    (chunks <> [] ->
     use_openai = true /\ is_Some (openai E) /\
     exists key, api_key = Some key /\ openai_api_key w' = Some key) /\
    (forall c, c ∈ chunks -> CallAudioTranscribe (snd c) ∈ calls w').
Proof.
  intros E v api_key use_openai output_dir cb w p w' H.
  apply process_file_Ok_inv in H
    as (w0 & chunks & w1 & acc & w2 & H0 & H1 & H2 & H3 & _ & _).
  exists w0, chunks, w1. split; [exact H0 |]. split; [exact H1 |].
  rewrite segments_to_srt_run in H3. injection H3 as <-. simpl.
  apply process_chunks_Ok_world in H2 as (Hconf & Hkeep & l & Hl & Hin). split.
  - intros Hne. destruct (Hconf Hne) as (Huse & Hsdk & [key Hk]).
    split; [exact Huse |]. split; [exact Hsdk |].
    exists key. split; [exact Hk |]. apply (Hkeep key Hk). now left.
  - intros c Hc. rewrite Hl. apply elem_of_app. right. now apply Hin.
Qed.

(** The run over 610 seconds: the key is left in [openai.api_key] and the
    third chunk has been sent. *)
Lemma a_returning_run_has_used_the_service_witness :
  exists w',
    process_file (sample_env 610 (Some sample_sdk)) sample_video (Some "key") true
                 None true empty_world = (Ok "/d/movie.srt", w') /\
    openai_api_key w' = Some "key" /\
    CallAudioTranscribe "/d/movie_work/chunk_002.wav" ∈ calls w'.
Proof.
  pose (r := process_file (sample_env 610 (Some sample_sdk)) sample_video (Some "key")
               true None true empty_world).
  assert (Hrun : r = (Ok "/d/movie.srt", snd r)) by (vm_compute; reflexivity).
  exists (snd r). split; [exact Hrun |].
  destruct (a_returning_run_has_used_the_service _ _ _ _ _ _ _ _ _ Hrun)
    as (w0 & chunks & w1 & H0 & H1 & Hconf & Hsent).
  assert (Hw0 : w0 = snd (mkdir "/d/movie_work" empty_world))
    by (change (mkdir "/d/movie_work" empty_world = (Ok tt, w0)) in H0; now rewrite H0).
  assert (Hchunks : chunks = [(0, 300, "/d/movie_work/chunk_000.wav");
                              (300, 600, "/d/movie_work/chunk_001.wav");
                              (600, 610, "/d/movie_work/chunk_002.wav")]%Q).
  { subst w0.
    assert (Hs : fst (split_audio (sample_env 610 (Some sample_sdk)) "/d/movie.mp4"
                        "/d/movie_work" (snd (mkdir "/d/movie_work" empty_world)))
                 = Ok chunks)
      by (change (split_audio (sample_env 610 (Some sample_sdk))
                    "/d/movie.mp4" "/d/movie_work"
                    (snd (mkdir "/d/movie_work" empty_world)) = (Ok chunks, w1)) in H1;
          now rewrite H1).
    vm_compute in Hs. now injection Hs as <-. }
  split.
  - destruct Hconf as (_ & _ & key & Hk & Hkey); [rewrite Hchunks; discriminate |].
    injection Hk as <-. exact Hkey.
  - apply (Hsent (600, 610, "/d/movie_work/chunk_002.wav")%Q).
    rewrite Hchunks. right. right. left.
Defined.

(** ** Which calls a run makes *)

Section Says.

Variable P : call -> Prop.

Lemma says_quiet {A} (c : M A) :
  (forall w, calls (snd (c w)) = calls w) -> says P c.
Proof.
  intros Hq w o w' H. exists []. rewrite app_nil_r.
  specialize (Hq w). rewrite H in Hq. split; [exact Hq | constructor].
Qed.

Lemma says_ret {A} (a : A) : says P (ret a).
Proof. now apply says_quiet. Qed.

Lemma says_raise {A} (e : exn) : says P (@raise A e).
Proof. now apply says_quiet. Qed.

Lemma says_diverge {A} : says P (@diverge A).
Proof. now apply says_quiet. Qed.

Lemma says_bind {A B} (m : M A) (k : A -> M B) :
  says P m -> (forall a, says P (k a)) -> says P (bind m k).
Proof.
  intros Hm Hk w o w' H. unfold bind in H.
  destruct (m w) as [[a | e |] w1] eqn:Em.
  - destruct (Hm _ _ _ Em) as (l1 & E1 & F1).
    destruct (Hk a _ _ _ H) as (l2 & E2 & F2).
    exists (l1 ++ l2). split; [now rewrite E2, E1, app_assoc |].
    apply Forall_app. now split.
  - injection H as <- <-. exact (Hm _ _ _ Em).
  - injection H as <- <-. exact (Hm _ _ _ Em).
Qed.

Lemma says_try_except {A} (body : M A) (handler : exn -> M A) :
  says P body -> (forall e, says P (handler e)) -> says P (try_except body handler).
Proof.
  intros Hb Hh w o w' H. unfold try_except in H.
  destruct (body w) as [[a | e |] w1] eqn:Eb.
  - injection H as <- <-. exact (Hb _ _ _ Eb).
  - destruct (Hb _ _ _ Eb) as (l1 & E1 & F1).
    destruct (Hh e _ _ _ H) as (l2 & E2 & F2).
    exists (l1 ++ l2). split; [now rewrite E2, E1, app_assoc |].
    apply Forall_app. now split.
  - injection H as <- <-. exact (Hb _ _ _ Eb).
Qed.

Lemma says_log (c : call) : P c -> says P (log c).
Proof.
  intros Hc w o w' H. injection H as <- <-. exists [c].
  split; [reflexivity | now constructor].
Qed.

Lemma says_set_api_key (k : string) : says P (set_api_key k).
Proof. now apply says_quiet. Qed.

Lemma says_write_file (p : string) (n : node) : says P (write_file p n).
Proof. now apply says_quiet. Qed.

Lemma says_mkdir (p : string) : says P (mkdir p).
Proof. apply says_quiet. intros w. unfold mkdir. now destruct (files w !! p). Qed.

Lemma says_open_rb (p : string) : says P (open_rb p).
Proof.
  apply says_quiet. intros w. unfold open_rb.
  now destruct (files w !! p) as [[| |c] |].
Qed.

Lemma says_external {A} (c : call) (r : exn + A) : P c -> says P (external c r).
Proof.
  intros Hc. apply says_bind; [now apply says_log |].
  intros _. destruct r; [apply says_raise | apply says_ret].
Qed.

Lemma says_check_call (c : call) (tool : string) (ok : bool) :
  P c -> says P (check_call c tool ok).
Proof.
  intros Hc. apply says_bind; [now apply says_log |].
  intros _. destruct ok; [apply says_ret | apply says_raise].
Qed.

Lemma says_progress (cb : bool) (msg : string) :
  (cb = true -> P (CallProgress msg)) -> says P (progress cb msg).
Proof. intros H. destruct cb; [apply says_log; auto | apply says_ret]. Qed.

Lemma says_translate_text text translator :
  (is_Some translator -> P (CallTranslate text)) ->
  says P (translate_text text translator).
Proof.
  intros H. destruct translator; [| apply says_ret].
  apply says_try_except; [apply says_external; eauto | intros _; apply says_ret].
Qed.

Lemma says_segments_to_srt timeline srt_path : says P (segments_to_srt timeline srt_path).
Proof. apply says_quiet. intros w. now rewrite segments_to_srt_run. Qed.

End Says.

Lemma says_split_audio E video_path out_dir :
  says (media_call E) (split_audio E video_path out_dir).
Proof.
  unfold split_audio, split_audio_with. apply says_bind.
  - unfold extract_full_audio.
    apply says_bind; [apply says_mkdir | intros _].
    destruct (mpy E) eqn:Hmpy.
    + apply says_bind; [now apply says_external | intros d].
      apply says_bind; [apply says_write_file | intros _; apply says_ret].
    + apply says_bind; [now apply says_check_call | intros _].
      apply says_bind; [apply says_write_file | intros _].
      apply says_external. exact Hmpy.
  - intros duration. unfold segment_audio.
    generalize (fuel_for CHUNK_SECONDS duration) 0%Q 0 (@nil chunk).
    intros fuel. induction fuel as [|fuel IH]; intros start idx chunks; simpl;
      destruct (Qlt_bool start duration); try apply says_ret; [apply says_diverge |].
    apply says_bind; [now apply says_check_call | intros _].
    apply says_bind; [apply says_write_file | intros _; apply IH].
Qed.

Lemma says_process_chunk E api_key use_openai cb total idx c all_segments :
  says (chunk_call E api_key use_openai cb)
       (process_chunk E api_key use_openai (Translator E) cb total idx c all_segments).
Proof.
  destruct c as [[start end_] path]. unfold process_chunk.
  apply says_bind; [now apply says_progress | intros _].
  apply says_bind.
  - destruct use_openai; [| apply says_raise].
    unfold transcribe_chunk_openai.
    destruct (openai E) as [sdk |] eqn:Hsdk;
      [| intros w o w' H; injection H as <- <-; exists [];
         split; [now rewrite app_nil_r | constructor]].
    destruct api_key as [key |];
      [| intros w o w' H; injection H as <- <-; exists [];
         split; [now rewrite app_nil_r | constructor]].
    assert (Hreq : true = true /\ is_Some (openai E) /\ is_Some (Some key))
      by (rewrite Hsdk; eauto).
    apply says_bind.
    + apply says_bind; [apply says_set_api_key | intros _].
      apply says_bind; [apply says_open_rb | intros _].
      apply says_try_except; [| intros _];
        (apply says_bind; [now apply says_external | intros res; apply says_ret]).
    + intros [text segments].
      assert (Htr : forall t, is_Some (Translator E) ->
                chunk_call E (Some key) true cb (CallTranslate t)).
      { intros t Ht. simpl. rewrite Hsdk. eauto. }
      unfold append_transcription. destruct segments as [|s rest].
      * apply says_bind; [apply says_translate_text; auto | intros chi; apply says_ret].
      * generalize (s :: rest). intros segments. revert all_segments.
        induction segments as [|s' rest' IH]; intros all_segments; simpl.
        -- apply says_ret.
        -- apply says_bind; [apply says_translate_text; auto | intros chi; apply IH].
  - intros acc. apply says_bind; [now apply says_progress | intros _; apply says_ret].
Qed.

Lemma says_process_chunks E api_key use_openai cb total chunks :
  forall idx all_segments,
  says (chunk_call E api_key use_openai cb)
       (process_chunks E api_key use_openai (Translator E) cb total idx chunks
                       all_segments).
Proof.
  induction chunks as [|c rest IH]; intros idx all_segments; simpl.
  - apply says_ret.
  - apply says_bind; [apply says_process_chunk | intros acc; apply IH].
Qed.

(** X16. The calls of a run of [process_file] come in two stretches.  First
    the segmentation: the extraction of the sound track, the duration probe
    (only without moviepy) and the cuts.  Then the loop over the chunks:
    progress messages (only with a callback), transcription requests (only
    with [use_openai], the library and a key) and translations (only with a
    translator as well).  So no request is sent before the last chunk has
    been cut, and writing the subtitle file makes no call. *)
Theorem requests_follow_the_last_cut :
  forall E v api_key use_openai output_dir cb w o w',
  process_file E v api_key use_openai output_dir cb w = (o, w') ->
  exists media work,
    calls w' = calls w ++ media ++ work /\
    Forall (media_call E) media /\
    Forall (chunk_call E api_key use_openai cb) work.
Proof.
  intros E v api_key use_openai output_dir cb w o w' H.
  destruct (mkdir_Ok (work_dir_of v output_dir) w) as [w0 H0].
  destruct (says_mkdir (fun _ => False) _ _ _ _ H0) as (l0 & Hl0 & Hnone).
  assert (Hw0 : calls w0 = calls w).
  { destruct l0 as [|c l0]; [now rewrite app_nil_r in Hl0 |].
    inversion Hnone; contradiction. }
  destruct (split_audio E (video_str v) (work_dir_of v output_dir) w0)
    as [o1 w1] eqn:H1.
  destruct (says_split_audio _ _ _ _ _ _ H1) as (media & Hmedia & Fmedia).
  rewrite Hw0 in Hmedia.
  destruct o1 as [chunks | e |].
  - rewrite (process_file_after_split _ _ _ _ _ _ _ _ _ _ H0 H1) in H.
    destruct (process_chunks E api_key use_openai (Translator E) cb (length chunks) 0
                chunks [] w1) as [o2 w2] eqn:H2.
    destruct (says_process_chunks _ _ _ _ _ _ _ _ _ _ _ H2) as (work & Hwork & Fwork).
    exists media, work. split; [| now split].
    rewrite app_assoc, <- Hmedia, <- Hwork.
    destruct o2; injection H as <- <-; reflexivity.
  - unfold process_file in H.
    rewrite (bind_Ok _ _ _ _ _ H0), (bind_Raise _ _ _ _ _ H1) in H.
    injection H as <- <-. exists media, []. rewrite app_nil_r. now split.
  - exfalso. pose proof (halts_split_audio E (video_str v) (work_dir_of v output_dir) w0)
      as Hh. rewrite H1 in Hh. now apply Hh.
Qed.

(** Without a callback, a translator and a key, the run over 610 seconds
    makes the calls of the segmentation and no other. *)
Lemma requests_follow_the_last_cut_witness :
  exists o w' media,
    process_file (sample_env 610 (Some sample_sdk)) sample_video None true None false
                 empty_world = (o, w') /\
    calls w' = media /\ Forall (media_call (sample_env 610 (Some sample_sdk))) media.
Proof.
  destruct (process_file (sample_env 610 (Some sample_sdk)) sample_video None true
              None false empty_world) as [o w'] eqn:Hrun.
  destruct (requests_follow_the_last_cut _ _ _ _ _ _ _ _ _ Hrun)
    as (media & work & Hcalls & Fmedia & Fwork).
  assert (Hwork : work = []).
  { destruct work as [|c work]; [reflexivity |].
    apply Forall_cons in Fwork as [Hc _].
    destruct c; simpl in Hc; try contradiction; try discriminate;
      try (destruct Hc as (_ & _ & [k Hk]); discriminate Hk);
      destruct Hc as (_ & _ & [k Hk] & _); discriminate Hk. }
  exists o, w', media. split; [reflexivity |].
  rewrite Hcalls, Hwork, app_nil_r. split; [reflexivity | exact Fmedia].
Defined.

(** ** The window *)

Lemma lstrip_blank (s : string) : Py.lstrip s = "" <-> blank s = true.
Proof.
  induction s as [|a r IH]; simpl; [tauto |].
  destruct (Py.isspace a); simpl; [exact IH |].
  split; discriminate.
Qed.







(** ** The worker thread *)

Lemma after_progress_keeps (cs : list call) :
  forall self,
  App.dialogs (App.after_progress cs self) = App.dialogs self /\
  App.threads (App.after_progress cs self) = App.threads self /\
  App.video_path_var (App.after_progress cs self) = App.video_path_var self /\
  App.api_key_var (App.after_progress cs self) = App.api_key_var self.
Proof.
  unfold App.after_progress.
  induction cs as [|c cs IH]; intros self; simpl; [tauto |].
  destruct c; try apply IH.
  destruct (IH (App.set_status msg self)) as (-> & -> & -> & ->). tauto.
Qed.

Lemma process_file_Raise_srt E v api_key use_openai output_dir cb w e w' :
  process_file E v api_key use_openai output_dir cb w = (Raise e, w') ->
  files w' !! srt_path_of v output_dir = files w !! srt_path_of v output_dir.
Proof.
  intros H.
  set (wd := work_dir_of v output_dir).
  assert (Hwd : in_work_dir wd wd) by now left.
  assert (Hsub : forall name, in_work_dir wd (path_join wd name))
    by (intros name; right; eauto).
  pose proof (srt_path_outside_work_dir v output_dir) as Hsrt. fold wd in Hsrt.
  apply process_file_Raise_inv in H as (w0 & H0 & H).
  pose proof (keeps_mkdir (same_outside wd) (in_work_dir wd)
                (same_outside_refl wd) (same_outside_write wd) wd Hwd w _ w0 H0 _ Hsrt)
    as E0.
  pose proof (keeps_split_audio (same_outside wd) (in_work_dir wd)
                (same_outside_refl wd) (same_outside_trans wd) (same_outside_write wd)
                E (video_str v) wd Hwd Hsub w0) as Hsplit.
  destruct H as [H1 | (chunks & w1 & H1 & H2)].
  - rewrite (Hsplit _ _ H1 _ Hsrt). exact E0.
  - apply process_chunks_same_files in H2. rewrite H2.
    rewrite (Hsplit _ _ H1 _ Hsrt). exact E0.
Qed.

(** X18. The worker thread always comes to an end and lets no exception
    out.  It shows exactly one dialog, as its last word: when
    [process_file] returned, the dialog "Done" with the path of the subtitle
    file, which then holds a document, and the status line says
    "Completed."; when [process_file] raised, the dialog "Error" with the
    text of the exception, the status line repeats it, and the path of the
    subtitle file holds what it held before.  The pipeline is run with the
    service selected, the key as given (never [None]), a progress callback,
    and the directory of the video as output directory. *)
Theorem worker_thread_reports_once :
  forall L E video api_key self w,
  let v := Path L video in
  let output_dir := Some (dirname L video) in
  exists self' w',
    App._run_job L E video api_key self w = (Ok tt, (self', w')) /\
    App.threads self' = App.threads self /\
    ((process_file E v (Some api_key) true output_dir true w
        = (Ok (srt_path_of v output_dir), w') /\
      App.dialogs self' = App.dialogs self ++
        [App.showinfo "Done" ("SRT created:" +:+ nl +:+ srt_path_of v output_dir)] /\
      App.status_var self' = "Completed. SRT saved: " +:+ srt_path_of v output_dir /\
      exists timeline,
        files w' !! srt_path_of v output_dir = Some (Txt (encode timeline))) \/
     (exists e,
        process_file E v (Some api_key) true output_dir true w = (Raise e, w') /\
        App.dialogs self' = App.dialogs self ++ [App.showerror "Error" (str L e)] /\
        App.status_var self' = "Error: " +:+ str L e /\
        files w' !! srt_path_of v output_dir = files w !! srt_path_of v output_dir)).
Proof.
  intros L E video api_key self w v output_dir. unfold App._run_job.
  fold v. fold output_dir.
  pose proof (halts_process_file E v (Some api_key) true output_dir true w) as Hh.
  destruct (process_file E v (Some api_key) true output_dir true w)
    as [[srt | e |] w'] eqn:Hrun; [| | now contradiction Hh].
  - destruct (after_progress_keeps (drop (length (calls w)) (calls w')) self)
      as (Hd & Ht & _ & _).
    eexists _, w'. split; [reflexivity |]. simpl. split; [exact Ht |]. left.
    apply process_file_Ok_inv in Hrun
      as (w0 & chunks & w1 & acc & w2 & _ & _ & _ & _ & -> & Hfiles).
    split; [reflexivity |]. split; [now rewrite Hd |]. split; [reflexivity |].
    exists (sort_by_start acc). rewrite Hfiles. apply lookup_insert_eq.
  - destruct (after_progress_keeps (drop (length (calls w)) (calls w')) self)
      as (Hd & Ht & _ & _).
    eexists _, w'. split; [reflexivity |]. simpl. split; [exact Ht |]. right.
    exists e. split; [reflexivity |]. split; [now rewrite Hd |].
    split; [reflexivity |]. now apply process_file_Raise_srt in Hrun.
Qed.

(** The thread started from the filled-in window, over 610 seconds. *)
Lemma worker_thread_reports_once_witness :
  exists self' w',
    App._run_job sample_platform (sample_env 610 (Some sample_sdk)) "/d/movie.mp4" "key"
                 (App.start window_filled_in) empty_world = (Ok tt, (self', w')) /\
    App.dialogs self' = [App.showinfo "Done" ("SRT created:" +:+ nl +:+ "/d/movie.srt")] /\
    App.status_var self' = "Completed. SRT saved: /d/movie.srt".
Proof.
  destruct (worker_thread_reports_once sample_platform (sample_env 610 (Some sample_sdk))
              "/d/movie.mp4" "key" (App.start window_filled_in) empty_world)
    as (self' & w' & Hjob & _ & [(_ & Hd & Hs & _) | (e & Hraise & _)]).
  - exists self', w'. split; [exact Hjob |]. split; [exact Hd | exact Hs].
  - exfalso.
    assert (H : fst (process_file (sample_env 610 (Some sample_sdk))
                       (Path sample_platform "/d/movie.mp4") (Some "key") true
                       (Some (dirname sample_platform "/d/movie.mp4")) true empty_world)
                = Ok "/d/movie.srt") by (vm_compute; reflexivity).
    rewrite Hraise in H. discriminate H.
Defined.

(** ** Responses with sound times *)

Lemma transcribe_chunk_openai_Ok_response E chunk_path api_key w t w' :
  transcribe_chunk_openai E chunk_path api_key w = (Ok t, w') ->
  exists sdk res,
    openai E = Some sdk /\
    (Audio_transcribe sdk chunk_path = inr res \/
     Transcription_create sdk chunk_path = inr res) /\
    t = transcript res.
Proof.
  unfold transcribe_chunk_openai.
  destruct (openai E) as [sdk |]; [| discriminate].
  destruct api_key as [key |]; [| discriminate].
  unfold bind at 1. unfold set_api_key at 1. unfold bind at 1.
  unfold open_rb at 1. simpl.
  destruct (files w !! chunk_path) as [[| | c] |]; try discriminate.
  all: unfold try_except, external, bind, log, ret, raise; simpl;
    destruct (Audio_transcribe sdk chunk_path) as [e1 | res1] eqn:H1; simpl;
    [destruct (Transcription_create sdk chunk_path) as [e2 | res2] eqn:H2; simpl |];
    intros H; try discriminate; injection H as <- _;
    [exists sdk, res2 | exists sdk, res1]; auto.
Qed.

Lemma split_audio_tiles E video_path out_dir w chunks w1 :
  split_audio E video_path out_dir w = (Ok chunks, w1) ->
  exists b, tiles 0 b (windows_of chunks).
Proof.
  unfold split_audio, split_audio_with. intros H.
  apply bind_Ok_inv in H as (d & w0 & _ & H). unfold segment_audio in H.
  apply split_loop_tiles in H as (new & -> & Hin & Hout); [| exact CHUNK_SECONDS_pos].
  simpl. destruct (Qlt_le_dec 0 d) as [Hpos | Hzero].
  - exists d. exact (Hin Hpos).
  - exists 0%Q. rewrite (Hout Hzero). apply tiles_nil. reflexivity.
Qed.

Lemma sorted_app (l1 l2 : list entry) (m : Q) :
  StronglySorted start_le l1 -> StronglySorted start_le l2 ->
  Forall (fun x => (e_start x <= m)%Q) l1 -> Forall (fun y => (m <= e_start y)%Q) l2 ->
  StronglySorted start_le (l1 ++ l2).
Proof.
  intros H1 H2 Hl Hr. induction H1 as [|x r Hr1 IH Hx]; simpl; [exact H2 |].
  apply Forall_cons in Hl as [Hxm Hl]. constructor; [now apply IH |].
  apply Forall_app. split; [exact Hx |].
  eapply List.Forall_impl; [| exact Hr]. intros y Hy. unfold start_le. cbv beta in *. lra.
Qed.

Lemma contribution_in_order (c : chunk) translator (t : string * list segment) :
  (fst (fst c) <= snd (fst c))%Q -> well_timed c t ->
  StronglySorted start_le (contribution c translator (fst t) (snd t)) /\
  Forall (fun x => (fst (fst c) <= e_start x)%Q /\ (e_start x <= snd (fst c))%Q)
         (contribution c translator (fst t) (snd t)).
Proof.
  intros Hc [Hin Hord]. unfold contribution.
  destruct (snd t) as [|s segments] eqn:Hs.
  - split; [repeat constructor |]. constructor; [simpl; lra | constructor].
  - rewrite <- Hs in *. clear Hs. split.
    + induction Hord as [|x r Hr IH Hx]; simpl; constructor.
      * apply IH. now apply Forall_cons in Hin as [_ Hin].
      * apply Forall_fmap. eapply List.Forall_impl; [| exact Hx].
        intros y Hy. unfold start_le. cbv beta in *. simpl. lra.
    + apply Forall_fmap. eapply List.Forall_impl; [| exact Hin].
      intros y [H1 H2]. cbv beta in *. simpl. lra.
Qed.

Lemma contributions_in_order translator (chunks : list chunk) :
  forall a b ts,
  tiles a b (windows_of chunks) -> Forall2 well_timed chunks ts ->
  StronglySorted start_le (contributions translator chunks ts) /\
  Forall (fun x => (a <= e_start x)%Q) (contributions translator chunks ts).
Proof.
  induction chunks as [|c rest IH]; intros a b ts Ht Hts.
  - destruct ts; simpl; split; constructor.
  - destruct ts as [|t ts]; [inversion Hts |].
    apply Forall2_cons in Hts as [Hc Hts].
    cbn [windows_of map] in Ht. fold (windows_of rest) in Ht.
    remember ((fst (fst c), snd (fst c)) :: windows_of rest) as ws eqn:Hws.
    destruct Ht as [a b Hab | a b s e ws' Has Hse Hrest]; [discriminate |].
    injection Hws as -> -> ->.
    destruct (IH _ _ ts Hrest Hts) as [Hsorted Hafter].
    destruct (contribution_in_order c translator t ltac:(lra) Hc) as [Hhead Hwithin].
    cbn [contributions]. split.
    + apply (sorted_app _ _ (snd (fst c))); [exact Hhead | exact Hsorted | | exact Hafter].
      eapply List.Forall_impl; [| exact Hwithin]. intros x [_ H]. exact H.
    + apply Forall_app. split.
      * eapply List.Forall_impl; [| exact Hwithin]. intros x [H _]. cbv beta in *. lra.
      * eapply List.Forall_impl; [| exact Hafter]. intros x H.
        cbv beta in *. lra.
Qed.

(** X19. When every response has its units in the order of their local
    starts, and these lie within the length of the chunk, sorting the
    timeline changes nothing: the subtitle file of a run that returns has
    its cues in the order of transcription, chunk after chunk and unit
    after unit. *)
Theorem sound_times_need_no_sorting :
  forall E v api_key use_openai output_dir cb w w0 chunks w1 p w',
  mkdir (work_dir_of v output_dir) w = (Ok tt, w0) ->
  split_audio E (video_str v) (work_dir_of v output_dir) w0 = (Ok chunks, w1) ->
  (forall c t wa wb, c ∈ chunks ->
     transcribe_chunk_openai E (snd c) api_key wa = (Ok t, wb) -> well_timed c t) ->
  process_file E v api_key use_openai output_dir cb w = (Ok p, w') ->
  exists ts,
    Forall2 (fun c t => exists wa wb,
               transcribe_chunk_openai E (snd c) api_key wa = (Ok t, wb)) chunks ts /\
    sort_by_start (contributions (Translator E) chunks ts)
      = contributions (Translator E) chunks ts /\
    files w' !! p = Some (Txt (encode (contributions (Translator E) chunks ts))).
Proof.
  intros E v api_key use_openai output_dir cb w w0 chunks w1 p w' H0 H1 Hsound Hrun.
  rewrite (process_file_after_split _ _ _ _ _ _ _ _ _ _ H0 H1) in Hrun.
  destruct (process_chunks E api_key use_openai (Translator E) cb (length chunks) 0
              chunks [] w1) as [[acc | e |] w2] eqn:H2; try discriminate.
  injection Hrun as <- <-.
  apply process_chunks_Ok_exact in H2 as (ts & Hts & ->). simpl.
  exists ts. split; [exact Hts |].
  assert (Hwell : Forall2 well_timed chunks ts).
  { clear H1. induction Hts as [|c t chunks' ts' (wa & wb & Htr) Hrest IH];
      constructor.
    - apply (Hsound c t wa wb); [left | exact Htr].
    - apply IH. intros c' t' wa' wb' Hc'. apply Hsound. now right. }
  destruct (split_audio_tiles _ _ _ _ _ _ H1) as [b Ht].
  destruct (contributions_in_order (Translator E) chunks 0 b ts Ht Hwell) as [Hs _].
  apply sort_by_start_fixes_sorted in Hs. split; [exact Hs |].
  rewrite Hs. apply lookup_insert_eq.
Qed.

(** Over 610 seconds, a service whose units come in order: the six cues are
    written in the order of transcription. *)
Lemma sound_times_need_no_sorting_witness :
  exists ts w',
    process_file (sample_env 610 (Some orderly_sdk)) sample_video (Some "key") true
                 None true empty_world = (Ok "/d/movie.srt", w') /\
    files w' !! "/d/movie.srt" =
      Some (Txt (encode (contributions None
                           [(0, 300, "/d/movie_work/chunk_000.wav");
                            (300, 600, "/d/movie_work/chunk_001.wav");
                            (600, 610, "/d/movie_work/chunk_002.wav")]%Q ts))).
Proof.
  pose (E := sample_env 610 (Some orderly_sdk)).
  pose (w0 := snd (mkdir "/d/movie_work" empty_world)).
  pose (w1 := snd (split_audio E "/d/movie.mp4" "/d/movie_work" w0)).
  pose (r := process_file E sample_video (Some "key") true None true empty_world).
  destruct (sound_times_need_no_sorting
              E sample_video (Some "key") true None true empty_world w0
              [(0, 300, "/d/movie_work/chunk_000.wav");
               (300, 600, "/d/movie_work/chunk_001.wav");
               (600, 610, "/d/movie_work/chunk_002.wav")]%Q
              w1 "/d/movie.srt" (snd r)) as (ts & _ & _ & Hfile);
    [vm_compute; reflexivity | vm_compute; reflexivity | | vm_compute; reflexivity |].
  - intros c t wa wb Hc Htr.
    apply transcribe_chunk_openai_Ok_response in Htr as (sdk & res & Hsdk & Hres & ->).
    injection Hsdk as <-.
    destruct Hres as [Hres | Hres]; [| discriminate]. injection Hres as <-.
    unfold well_timed, local_start. simpl.
    repeat (apply elem_of_cons in Hc as [-> | Hc]); [| | | inversion Hc].
    all: split; repeat constructor; simpl; unfold Qle; simpl; lia.
  - exists ts, (snd r). split; [vm_compute; reflexivity | exact Hfile].
Defined.
